(** * SumatraPDF geometry kernel and tree visitor: a shallow embedding

    The development follows [src/utils/GeomUtil.h] (the templates
    [PointT], [SizeT] and [RectT] of namespace [geomutil]) and the
    tree visitor [VisitTreeItemRec] / [VisitTreeModelItems].

    The templates are parameterised by a numeric kind [T].  The kernel
    instantiates them at [int] ([PointI], [SizeI], [RectI]) and at
    [double] ([PointD], [SizeD], [RectD]).  Here

    - [int] is a 32-bit two's complement machine word (coqutil's
      [Naive.word32]); [+], [-] and unary [-] wrap around, comparisons
      are signed;
    - [double] is IEEE-754 binary64, given by [SpecFloat] with
      precision 53 and maximal exponent 1024. *)

From Stdlib Require Import String.
From Stdlib Require Import ZArith Lia Bool List.
From Stdlib Require Import QArith Qround.
From Stdlib Require Import Floats.SpecFloat.
From coqutil Require Import Word.Interface Word.Properties Word.Naive.
Import ListNotations.

Local Open Scope Z_scope.

(** ** Numeric kinds

    What the templates use of [T]: the literal [0], [+], binary and
    unary [-], and the comparisons [<], [<=] and [==].  [a > b] is
    [b < a] for both kinds. *)

Class Numeric (T : Type) : Type := {
  num_zero : T;
  num_add : T -> T -> T;
  num_sub : T -> T -> T;
  num_neg : T -> T;
  num_ltb : T -> T -> bool;
  num_leb : T -> T -> bool;
  num_eqb : T -> T -> bool
}.

Definition num_gtb {T} `{Numeric T} (a b : T) : bool := num_ltb b a.

(** [std::max(a, b)] is [(a < b) ? b : a]; [std::min(a, b)] is
    [(b < a) ? b : a]. *)
Definition std_max {T} `{Numeric T} (a b : T) : T :=
  if num_ltb a b then b else a.

Definition std_min {T} `{Numeric T} (a b : T) : T :=
  if num_ltb b a then b else a.

(** ** The integer kind *)

Definition int : Type := @word.rep 32 Naive.word32.

Definition INT_MIN : Z := - 2 ^ 31.
Definition INT_MAX : Z := 2 ^ 31 - 1.

(** The value of an [int], and the [int] of a literal. *)
Definition sval (i : int) : Z := word.signed i.
Definition of_int (z : Z) : int := word.of_Z z.

#[export] Instance int_kind : Numeric int := {
  num_zero := word.of_Z 0;
  num_add := word.add;
  num_sub := word.sub;
  num_neg := word.opp;
  num_ltb := word.lts;
  num_leb := fun a b => negb (word.lts b a);
  num_eqb := word.eqb
}.

(** ** The floating kind: binary64 *)

Definition double : Type := spec_float.

Definition dprec : Z := 53.
Definition demax : Z := 1024.

#[export] Instance double_kind : Numeric double := {
  num_zero := S754_zero false;
  num_add := SFadd dprec demax;
  num_sub := SFsub dprec demax;
  num_neg := SFopp;
  num_ltb := SFltb;
  num_leb := SFleb;
  num_eqb := SFeqb
}.

(** ** namespace geomutil *)

Module geomutil.

Record PointT (T : Type) : Type := mkPoint { x : T; y : T }.
Record SizeT (T : Type) : Type := mkSize { dx : T; dy : T }.
Record RectT (T : Type) : Type := mkRectT { min : PointT T; max : PointT T }.

Arguments mkPoint {T} _ _.
Arguments x {T} _.
Arguments y {T} _.
Arguments mkSize {T} _ _.
Arguments dx {T} _.
Arguments dy {T} _.
Arguments mkRectT {T} _ _.
Arguments min {T} _.
Arguments max {T} _.

Section Templates.
Context {T : Type} {K : Numeric T}.

Local Notation "0" := num_zero.
Local Infix "+" := num_add.
Local Infix "-" := num_sub.
Local Infix "<" := num_ltb.
Local Infix ">" := num_gtb.
Local Infix "<=" := num_leb.
Local Infix "==" := num_eqb (at level 70).

(** *** PointT *)

Definition Point_default : PointT T := mkPoint 0 0.

Definition Point_empty (p : PointT T) : bool :=
  (x p == 0) && (y p == 0).

Definition Point_eq (a b : PointT T) : bool :=
  (x a == x b) && (y a == y b).

(** *** SizeT *)

Definition Size_IsEmpty (s : SizeT T) : bool :=
  (dx s == 0) || (dy s == 0).

Definition Size_eq (a b : SizeT T) : bool :=
  (dx a == dx b) && (dy a == dy b).

(** *** RectT

    A rectangle is its two corners [min] and [max].  The constructor
    from a point and a size, [Convert], [TL], [BR] and [Size] of the
    source still name members [x], [y], [dx], [dy] of an earlier
    layout, which [RectT] no longer has; they are not instantiated
    and have no counterpart here. *)

(** [RectT() = default]: both corners are default points. *)
Definition Rect_default : RectT T := mkRectT Point_default Point_default.

(** [RectT(T x, T y, T dx, T dy)]. *)
Definition Rect (x0 y0 dx0 dy0 : T) : RectT T :=
  mkRectT (mkPoint x0 y0) (mkPoint (x0 + dx0) (y0 + dy0)).

Definition X (r : RectT T) : T := x (min r).
Definition Y (r : RectT T) : T := y (min r).
Definition Width (r : RectT T) : T := x (max r) - x (min r).
Definition Height (r : RectT T) : T := y (max r) - y (min r).
Definition Dx (r : RectT T) : T := x (max r) - x (min r).
Definition Dy (r : RectT T) : T := y (max r) - y (min r).

Definition SetDx (r : RectT T) (d : T) : RectT T :=
  mkRectT (min r) (mkPoint (x (min r) + d) (y (max r))).

Definition SetDy (r : RectT T) (d : T) : RectT T :=
  mkRectT (min r) (mkPoint (x (max r)) (y (min r) + d)).

(** [static RectT FromXY(T xs, T ys, T xe, T ye)]: the assignments
    to the parameters [xs], [ys] and to the locals [dx], [dy] become
    [let]s. *)
Definition FromXY (xs ys xe ye : T) : RectT T :=
  let dx0 := xe - xs in
  let '(xs, dx0) := if dx0 < 0 then (xe, num_neg dx0) else (xs, dx0) in
  let dy0 := ye - ys in
  let '(ys, dy0) := if dy0 < 0 then (ye, num_neg dy0) else (ys, dy0) in
  Rect xs ys dx0 dy0.

(** [static RectT FromXY(PointT<T> TL, PointT<T> BR)]. *)
Definition FromXY_pt (TL BR : PointT T) : RectT T :=
  FromXY (x TL) (y TL) (x BR) (y BR).

Definition IsEmpty (r : RectT T) : bool :=
  (Dx r == 0) || (Dy r == 0).

(** [Contains]: four early returns, in the order of the source. *)
Definition Contains (r : RectT T) (pt : PointT T) : bool :=
  let x0 := x pt in
  let y0 := y pt in
  if x0 < X r then false
  else if x0 > X r + Dx r then false
  else if y0 < Y r then false
  else if y0 > Y r + Dy r then false
  else true.

Definition Intersect (r other : RectT T) : RectT T :=
  let _x := std_max (X r) (X other) in
  let _y := std_max (Y r) (Y other) in
  let _dx := std_min (X r + Dx r) (X other + Dx other) - _x in
  let _dy := std_min (Y r + Dy r) (Y other + Dy other) - _y in
  if (_dx <= 0) || (_dy <= 0) then Rect_default
  else Rect _x _y _dx _dy.

(** [Union].  The source spells the accessor [other.x()] in two
    places; [RectT] has no such member and the accessor meant is
    [X()], which is what the model uses. *)
Definition Union (r other : RectT T) : RectT T :=
  if (Dx r <= 0) && (Dy r <= 0) then other
  else if (Dx other <= 0) && (Dy other <= 0) then r
  else
    let _x := std_min (X r) (X other) in
    let _y := std_min (Y r) (Y other) in
    let _dx := std_max (X r + Dx r) (X other + Dx other) - _x in
    let _dy := std_max (Y r + Dy r) (Y other + Dy other) - _y in
    Rect _x _y _dx _dy.

(** The mutators return the updated receiver. *)
Definition Offset (r : RectT T) (_x _y : T) : RectT T :=
  mkRectT (mkPoint (x (min r) + _x) (y (min r) + _y)) (max r).

Definition Inflate (r : RectT T) (_x _y : T) : RectT T :=
  mkRectT (mkPoint (x (min r) - _x) (y (min r) - _y))
          (mkPoint (x (max r) + _x) (y (max r) + _y)).

(** [operator==] of [RectT]. *)
Definition Rect_eq (a b : RectT T) : bool :=
  (X a == X b) && (Y a == Y b) && (Dx a == Dx b) && (Dy a == Dy b).

(** [operator!=] of the three templates: [!this->operator==(other)]. *)
Definition Point_ne (a b : PointT T) : bool := negb (Point_eq a b).
Definition Size_ne (a b : SizeT T) : bool := negb (Size_eq a b).
Definition Rect_ne (a b : RectT T) : bool := negb (Rect_eq a b).

End Templates.

End geomutil.

Import geomutil.

Definition PointI : Type := PointT int.
Definition SizeI : Type := SizeT int.
Definition RectI : Type := RectT int.
Definition PointD : Type := PointT double.
Definition RectD : Type := RectT double.

(** Literals of the integer kind. *)
Definition PtI (px py : Z) : PointI := mkPoint (of_int px) (of_int py).
Definition SzI (w h : Z) : SizeI := mkSize (of_int w) (of_int h).
Definition RcI (x0 y0 w h : Z) : RectI :=
  Rect (of_int x0) (of_int y0) (of_int w) (of_int h).

(** The four coordinates of an integer rectangle, as numbers. *)
Definition coords (r : RectI) : Z * Z * Z * Z :=
  (sval (X r), sval (Y r), sval (Width r), sval (Height r)).

(** ** Doubles as numbers: exact values, [floor], [ceil] and the cast to [int] *)

(** [dbl m e] is the double nearest to [m * 2^e] (the number itself
    when [m] has at most 53 bits and [e] is in range). *)
Definition dbl (m e : Z) : double := binary_normalize dprec demax m e false.

(** [FLT_EPSILON] is [1.192092896e-07f], the [float] [2^-23]; in an
    expression with a [double] it is converted, without rounding, to
    the [double] [2^-23]. *)
Definition FLT_EPSILON : double := dbl 1 (-23).

(** The rational number a finite double stands for. *)
Definition Qpow2 (e : Z) : Q :=
  if 0 <=? e then inject_Z (2 ^ e) else 1 # Z.to_pos (2 ^ (- e)).

Definition dval (v : double) : option Q :=
  match v with
  | S754_zero _ => Some 0%Q
  | S754_finite s m e =>
      Some (inject_Z (if s then Z.neg m else Z.pos m) * Qpow2 e)%Q
  | S754_infinity _ | S754_nan => None
  end.

(** The cast [(int)z] of an integral double: defined when the value
    fits an [int]. *)
Definition to_int (z : Z) : option int :=
  if (INT_MIN <=? z) && (z <=? INT_MAX) then Some (of_int z) else None.

(** [(int)floor(v)] and [(int)ceil(v)].  [floor] and [ceil] of a
    finite double are integral doubles, computed without rounding;
    for an infinity or a NaN, and for a value outside [int], the cast
    has no defined result. *)
Definition floor_int (v : double) : option int :=
  match dval v with
  | Some q => to_int (Qfloor q)
  | None => None
  end.

Definition ceil_int (v : double) : option int :=
  match dval v with
  | Some q => to_int (Qceiling q)
  | None => None
  end.

(** [RectT<double>::Round()], cf. [fz_roundrect]. *)
Definition Round (r : RectD) : option RectI :=
  match floor_int (num_add (X r) FLT_EPSILON),
        floor_int (num_add (Y r) FLT_EPSILON),
        ceil_int (num_sub (num_add (X r) (Dx r)) FLT_EPSILON),
        ceil_int (num_sub (num_add (Y r) (Dy r)) FLT_EPSILON) with
  | Some xs, Some ys, Some xe, Some ye => Some (FromXY xs ys xe ye)
  | _, _, _, _ => None
  end.

(** ** The tree visitor *)

(** Modelled from the spec: the class [TreeItem] is declared in
    [wingui/TreeModel.h], which is not among the sources; the spec
    calls the utility a recursive tree visitor.  The visitor uses
    [ChildCount()] and [ChildAt(i)] of an item and nothing else, so an
    item is an identifier and the list of its children.  A [TreeItem*]
    is null or points to an item. *)
Inductive TreeItem : Type :=
| Item (id : Z) (children : list TreePtr)
with TreePtr : Type :=
| nullptr
| ptr_to (ti : TreeItem).

Definition ChildCount (ti : TreeItem) : nat :=
  match ti with Item _ cs => length cs end.

Definition ChildAt (ti : TreeItem) (i : nat) : TreePtr :=
  match ti with Item _ cs => nth i cs nullptr end.

(** How a call ends: it returns a [bool], or it calls a member
    function through a null pointer. *)
Inductive outcome : Type :=
| Returns (b : bool)
| NullDereference.

(** A [TreeItemVisitor] is a callable from [TreeItem*] to [bool]; it
    may keep state of its own, which is threaded through the calls. *)
Section Visitor.
Context {S : Type}.
Variable visitor : TreeItem -> S -> bool * S.

(** [VisitTreeItemRec].  The guarded block comes first; it yields
    [Some false] for the early [return false] and [None] when control
    goes on.  Then [ti->ChildCount()] is evaluated, whatever [ti] is,
    and the loop runs over the children [ChildAt(0)], ...,
    [ChildAt(n - 1)], here the list of children from its head. *)
Fixpoint VisitTreeItemRec (ti : TreePtr) (s : S) {struct ti} : outcome * S :=
  let '(early, s) :=
    match ti with
    | ptr_to t =>
        let '(cont, s) := visitor t s in
        if negb cont then (Some false, s) else (None, s)
    | nullptr => (None, s)
    end in
  match early with
  | Some b => (Returns b, s)
  | None =>
      match ti with
      | nullptr => (NullDereference, s)
      | ptr_to (Item _ cs) =>
          (fix loop (cs : list TreePtr) (s : S) {struct cs} : outcome * S :=
             match cs with
             | [] => (Returns true, s)
             | child :: rest =>
                 match VisitTreeItemRec child s with
                 | (Returns true, s) => loop rest s
                 | (Returns false, s) => (Returns false, s)
                 | (NullDereference, s) => (NullDereference, s)
                 end
             end) cs s
      end
  end.

Definition VisitTreeModelItems (ti : TreePtr) (s : S) : outcome * S :=
  VisitTreeItemRec ti s.

End Visitor.

(** ** Conversions between the kinds *)

(** The cast [(double)i] of an [int]: every [int] is a double, the
    conversion keeps the value. *)
Definition int_to_double (i : int) : double := dbl (sval i) 0.

(** The cast [(int)v] of a double drops the fraction (it truncates
    towards zero); it has no defined result for an infinity or a NaN
    and when the truncated value does not fit an [int]. *)
Definition Qtrunc (q : Q) : Z :=
  if Qle_bool 0 q then Qfloor q else Qceiling q.

Definition double_to_int (v : double) : option int :=
  match dval v with
  | Some q => to_int (Qtrunc q)
  | None => None
  end.

(** The literal [0.5]. *)
Definition half : double := dbl 1 (-1).

(** [(int)floor(v + 0.5)] for a double [v], and for an [int] [i], which
    the addition first converts to a double. *)
Definition round_half_up (v : double) : option int :=
  floor_int (num_add v half).

Definition round_half_up_int (i : int) : option int :=
  round_half_up (int_to_double i).

(** [PointT<int>::Convert<double>()] and [PointT<double>::Convert<int>()];
    likewise for [SizeT]. *)
Definition Point_Convert_double (p : PointI) : PointD :=
  mkPoint (int_to_double (x p)) (int_to_double (y p)).

Definition Point_Convert_int (p : PointD) : option PointI :=
  match double_to_int (x p), double_to_int (y p) with
  | Some px, Some py => Some (mkPoint px py)
  | _, _ => None
  end.

Definition Size_Convert_double (s : SizeI) : SizeT double :=
  mkSize (int_to_double (dx s)) (int_to_double (dy s)).

Definition Size_Convert_int (s : SizeT double) : option SizeI :=
  match double_to_int (dx s), double_to_int (dy s) with
  | Some w, Some h => Some (mkSize w h)
  | _, _ => None
  end.

(** [ToInt()] of the three templates, at [double] and at [int]. *)
Definition Point_ToInt (p : PointD) : option PointI :=
  match round_half_up (x p), round_half_up (y p) with
  | Some px, Some py => Some (mkPoint px py)
  | _, _ => None
  end.

Definition PointI_ToInt (p : PointI) : option PointI :=
  match round_half_up_int (x p), round_half_up_int (y p) with
  | Some px, Some py => Some (mkPoint px py)
  | _, _ => None
  end.

Definition Size_ToInt (s : SizeT double) : option SizeI :=
  match round_half_up (dx s), round_half_up (dy s) with
  | Some w, Some h => Some (mkSize w h)
  | _, _ => None
  end.

Definition SizeI_ToInt (s : SizeI) : option SizeI :=
  match round_half_up_int (dx s), round_half_up_int (dy s) with
  | Some w, Some h => Some (mkSize w h)
  | _, _ => None
  end.

Definition Rect_ToInt (r : RectD) : option RectI :=
  match round_half_up (X r), round_half_up (Y r),
        round_half_up (Dx r), round_half_up (Dy r) with
  | Some x0, Some y0, Some w, Some h => Some (Rect x0 y0 w h)
  | _, _, _, _ => None
  end.

Definition RectI_ToInt (r : RectI) : option RectI :=
  match round_half_up_int (X r), round_half_up_int (Y r),
        round_half_up_int (Dx r), round_half_up_int (Dy r) with
  | Some x0, Some y0, Some w, Some h => Some (Rect x0 y0 w h)
  | _, _, _, _ => None
  end.

(** The Windows [RECT]: four [LONG]s, which are 32-bit integers. *)
Record RECT : Type := mkRECT { left : int; top : int; right : int; bottom : int }.

(** [RectT<int>::ToRECT()] and [RectT<int>::FromRECT(rect)]. *)
Definition ToRECT (r : RectI) : option RECT :=
  match RectI_ToInt r with
  | Some rectI =>
      Some (mkRECT (X rectI) (Y rectI)
                   (num_add (X rectI) (Dx rectI)) (num_add (Y rectI) (Dy rectI)))
  | None => None
  end.

Definition FromRECT (rect : RECT) : RectI :=
  FromXY (left rect) (top rect) (right rect) (bottom rect).

(** ** Filling a drop-down from a table of names *)

(** A [const char**] table is an array of C strings; a null entry is
    [None].  Reading an entry at or past the end of the array has no
    defined result. *)
Definition string_table : Type := list (option string).

(** [DropDownItemsFromStringArray(items, strings)]: [strings] is the
    part of the table from index [i] on; the loop appends [strings[i]]
    to [items] until it reads a null entry.  [None] stands for a read
    past the end of the table. *)
Fixpoint DropDownItemsFromStringArray (items : list string)
    (strings : string_table) : option (list string) :=
  match strings with
  | [] => None
  | None :: _ => Some items
  | Some s :: rest => DropDownItemsFromStringArray (items ++ [s]) rest
  end.

(** The tables [CreateMainLayout] fills drop-downs from, and the
    colour values that go with [gColors]. *)
Definition gAnnotationTypes : string_table :=
  [Some "Text"; Some "Free Text"; Some "Stamp"; Some "Caret"; Some "Ink";
   Some "Square"; Some "Circle"; Some "Line"; Some "Polygon"; None]%string.

Definition gColors : string_table :=
  [Some "None"; Some "Aqua"; Some "Black"; Some "Blue"; Some "Fuchsia";
   Some "Gray"; Some "Green"; Some "Lime"; Some "Maroon"; Some "Navy";
   Some "Olive"; Some "Orange"; Some "Purple"; Some "Red"; Some "Silver";
   Some "Teal"; Some "White"; Some "Yellow"; None]%string.

Definition gColorsValues : list Z :=
  [0x00000000; 0xff00ffff; 0xff000000; 0xff0000ff; 0xffff00ff; 0xff808080;
   0xff008000; 0xff00ff00; 0xff800000; 0xff000080; 0xff808000; 0xffffa500;
   0xff800080; 0xffff0000; 0xffc0c0c0; 0xff008080; 0xffffffff; 0xffffff00].

(** * Vocabulary of the statements *)

(** ** Kinds with a total order and exact [+] / [-]

    The laws the proofs about rectangles rest on.  They hold for
    [int], where [+] and [-] wrap around and so are inverse to each
    other.  They do not hold for [double] (rounding, NaN). *)

Class OrderedKind (T : Type) {K : Numeric T} : Prop := {
  ltb_irrefl : forall a : T, num_ltb a a = false;
  ltb_trans : forall a b c : T,
    num_ltb a b = true -> num_ltb b c = true -> num_ltb a c = true;
  ltb_total : forall a b : T,
    num_ltb a b = false -> num_ltb b a = false -> a = b;
  leb_ltb : forall a b : T, num_leb a b = negb (num_ltb b a);
  eqb_eq : forall a b : T, num_eqb a b = true <-> a = b;
  add_sub_cancel : forall a b : T, num_add a (num_sub b a) = b;
  sub_add_cancel : forall a d : T, num_sub (num_add a d) a = d
}.

Section Vocabulary.
Context {T : Type} {K : Numeric T}.

(** [le a b] is the source's [!(b < a)], which is [a <= b]. *)
Definition le (a b : T) : Prop := num_ltb b a = false.

(** [Union] past its two shortcuts is the hull of the corners. *)
Definition hull (a b : RectT T) : RectT T :=
  mkRectT (mkPoint (std_min (X a) (X b)) (std_min (Y a) (Y b)))
          (mkPoint (std_max (x (max a)) (x (max b)))
                   (std_max (y (max a)) (y (max b)))).

(** The guard of the shortcuts: both extents are [<= 0]. *)
Definition both_nonpositive (r : RectT T) : bool :=
  num_leb (Dx r) num_zero && num_leb (Dy r) num_zero.

End Vocabulary.

(** Wrap-around: the value of a sum, difference or negation is the
    exact result brought back into [INT_MIN .. INT_MAX]. *)
Definition wrap32 (z : Z) : Z := (z + 2 ^ 31) mod 2 ^ 32 - 2 ^ 31.

(** The locals [_x], [_y], [_dx], [_dy] of [Intersect]. *)
Definition isect_x (a b : RectI) : int := std_max (X a) (X b).
Definition isect_y (a b : RectI) : int := std_max (Y a) (Y b).
Definition isect_end_x (a b : RectI) : int :=
  std_min (num_add (X a) (Dx a)) (num_add (X b) (Dx b)).
Definition isect_end_y (a b : RectI) : int :=
  std_min (num_add (Y a) (Dy a)) (num_add (Y b) (Dy b)).
Definition isect_dx (a b : RectI) : int := num_sub (isect_end_x a b) (isect_x a b).
Definition isect_dy (a b : RectI) : int := num_sub (isect_end_y a b) (isect_y a b).

(** One axis of [FromXY]: the start and the extent it settles on. *)
Definition from_axis (s e : int) : int * int :=
  let d := num_sub e s in
  if num_ltb d num_zero then (e, num_neg d) else (s, d).

(** The points of the plane an integer rectangle covers: a point with
    finite double coordinates lies in [R] when it is between the near
    and the far edges of [R], edges included, as [Contains] has it. *)
Definition covers (R : RectI) (p : PointD) : bool :=
  match dval (x p), dval (y p) with
  | Some qx, Some qy =>
      Qle_bool (inject_Z (sval (X R))) qx &&
      Qle_bool qx (inject_Z (sval (num_add (X R) (Dx R)))) &&
      Qle_bool (inject_Z (sval (Y R))) qy &&
      Qle_bool qy (inject_Z (sval (num_add (Y R) (Dy R))))
  | _, _ => false
  end.

(** [lo <= v <= hi] on the values of finite doubles. *)
Definition between (lo v hi : double) : bool :=
  match dval lo, dval v, dval hi with
  | Some a, Some q, Some b => Qle_bool a q && Qle_bool q b
  | _, _, _ => false
  end.

(** A double within a billion of zero; its [floor] and [ceil] fit an
    [int] with room to spare. *)
Definition within_reach (v : double) : bool :=
  match dval v with
  | Some q => Qle_bool (inject_Z (- 10 ^ 9)) q && Qle_bool q (inject_Z (10 ^ 9))
  | None => false
  end.

(** The edges [Round] rounds. *)
Definition near_x (r : RectD) : double := num_add (X r) FLT_EPSILON.
Definition near_y (r : RectD) : double := num_add (Y r) FLT_EPSILON.
Definition far_x_eps (r : RectD) : double :=
  num_sub (num_add (X r) (Dx r)) FLT_EPSILON.
Definition far_y_eps (r : RectD) : double :=
  num_sub (num_add (Y r) (Dy r)) FLT_EPSILON.

(** The rectangle with near corner (1 - 2^-24, 0), width 1 and height 1,
    and its near corner as a point. *)
Definition just_below_one : double := dbl (2 ^ 24 - 1) (-24).
Definition rect_below_one : RectD :=
  Rect just_below_one (dbl 0 0) (dbl 1 0) (dbl 1 0).
Definition corner_below_one : PointD := mkPoint just_below_one (dbl 0 0).

(** The rectangle (0.25, 0.25, 2.5, 2.5) rounds to (0, 0, 3, 3). *)
Definition rect_quarter : RectD :=
  Rect (dbl 1 (-2)) (dbl 1 (-2)) (dbl 5 (-1)) (dbl 5 (-1)).

(** A tree in which no child pointer is null. *)
Fixpoint no_null_child (t : TreeItem) : bool :=
  match t with
  | Item _ cs =>
      forallb (fun c => match c with
                        | nullptr => false
                        | ptr_to t' => no_null_child t'
                        end) cs
  end.

(** A visitor that counts the items it is shown and always goes on. *)
Definition count_items (t : TreeItem) (n : nat) : bool * nat := (true, Datatypes.S n).

(** The rectangle (3, 3, -2, -2): its far corner is up and to the left
    of its near corner. *)
Definition rect_backwards : RectD :=
  Rect (dbl 3 0) (dbl 3 0) (dbl (-2) 0) (dbl (-2) 0).

(** The items of a tree in pre-order: an item, then the items below
    its children, child by child. *)
Fixpoint preorder (t : TreeItem) : list TreeItem :=
  match t with
  | Item _ cs =>
      t :: flat_map (fun c => match c with
                              | nullptr => []
                              | ptr_to t' => preorder t'
                              end) cs
  end.

(** Calling a visitor on the items of a list, in order, until it
    returns [false]: whether every call said [true], and the state the
    visitor is left in. *)
Fixpoint call_in_order {S : Type} (visitor : TreeItem -> S -> bool * S)
    (l : list TreeItem) (s : S) : bool * S :=
  match l with
  | [] => (true, s)
  | t :: l' =>
      let '(cont, s) := visitor t s in
      if cont then call_in_order visitor l' s else (false, s)
  end.

(** What a visit meets, in order: the items in pre-order, with a
    mark ([None]) wherever a pointer is null. *)
Fixpoint walk (ti : TreePtr) : list (option TreeItem) :=
  match ti with
  | nullptr => [None]
  | ptr_to t =>
      Some t :: match t with
                | Item _ cs => flat_map (fun c => walk c) cs
                end
  end.

(** Going through such a list: the visitor is called on each item until
    it returns [false]; a null mark met before that is dereferenced. *)
Fixpoint call_until_stop {S : Type} (visitor : TreeItem -> S -> bool * S)
    (l : list (option TreeItem)) (s : S) : outcome * S :=
  match l with
  | [] => (Returns true, s)
  | None :: _ => (NullDereference, s)
  | Some t :: l' =>
      let '(cont, s) := visitor t s in
      if cont then call_until_stop visitor l' s else (Returns false, s)
  end.

(** The number [n * 2^e], and a mantissa with its sign. *)
Definition dyadic (n e : Z) : Q := (inject_Z n * Qpow2 e)%Q.

Definition signed_pos (s : bool) (m : positive) : Z :=
  if s then Z.neg m else Z.pos m.

(** The rectangle whose corners have the coordinates [a/2^22],
    [b/2^22] and [c/2^22], [d/2^22]. *)
Definition grid_rect (a b c d : Z) : RectD :=
  mkRectT (mkPoint (dbl a (-22)) (dbl b (-22)))
          (mkPoint (dbl c (-22)) (dbl d (-22))).

(** The [double] rectangle that the four-argument constructor builds
    from the accessors of an integer one,
    [RectT<double>(r.X(), r.Y(), r.Dx(), r.Dy())]. *)
Definition to_RectD (r : RectI) : RectD :=
  Rect (int_to_double (X r)) (int_to_double (Y r))
       (int_to_double (Dx r)) (int_to_double (Dy r)).

(** The distance between the corners of [r] is an [int] on both axes. *)
Definition extents_fit (r : RectI) : Prop :=
  INT_MIN <= sval (x (max r)) - sval (x (min r)) <= INT_MAX /\
  INT_MIN <= sval (y (max r)) - sval (y (min r)) <= INT_MAX.

(** The corners of [r] lie within [2^30] of the origin. *)
Definition half_range (r : RectI) : Prop :=
  Z.abs (sval (x (min r))) < 2 ^ 30 /\ Z.abs (sval (y (min r))) < 2 ^ 30 /\
  Z.abs (sval (x (max r))) < 2 ^ 30 /\ Z.abs (sval (y (max r))) < 2 ^ 30.

(** Doubles at which the far edge [X + Dx] is a rounded sum:
    0.5 + 2^-53, the rectangles (0, 0, 0.5 + 2^-53, 1) and
    (-1, 0, 0.5, 1), and the rectangle with the corners (2^-53, 0) and
    (1 + 2^-52, 1). *)
Definition just_above_half : double := dbl (2 ^ 52 + 1) (-53).
Definition rect_to_above_half : RectD :=
  Rect (dbl 0 0) (dbl 0 0) just_above_half (dbl 1 0).
Definition rect_from_minus_one : RectD :=
  Rect (dbl (-1) 0) (dbl 0 0) half (dbl 1 0).
Definition rect_above_one : RectD :=
  mkRectT (mkPoint (dbl 1 (-53)) (dbl 0 0))
          (mkPoint (dbl (2 ^ 52 + 1) (-52)) (dbl 1 0)).

(** * Theorems *)

Example intersect_concrete :
  coords (Intersect (RcI 0 0 10 10) (RcI 5 5 10 10)) = (5, 5, 5, 5).
Proof. vm_compute. reflexivity. Qed.

Example union_concrete :
  coords (Union (RcI 0 0 10 10) (RcI 5 5 10 10)) = (0, 0, 15, 15).
Proof. vm_compute. reflexivity. Qed.

#[local] Instance word32_ok : word.ok Naive.word32 := Naive.word32_ok.

Add Ring int_ring : (word.ring_theory (word := Naive.word32)).

(** Equations between [int] expressions that hold in the ring of
    32-bit words. *)
Ltac int_ring :=
  cbn [num_add num_sub num_neg num_zero int_kind]; unfold int in *; ring.

Lemma int_lts (a b : int) : word.lts a b = (sval a <? sval b).
Proof. apply word.signed_lts. Qed.

Lemma sval_inj (a b : int) : sval a = sval b -> a = b.
Proof. apply word.signed_inj. Qed.

Lemma sval_range (a : int) : INT_MIN <= sval a <= INT_MAX.
Proof.
  pose proof (word.signed_range a) as H. unfold sval, INT_MIN, INT_MAX.
  change (2 ^ (32 - 1)) with (2 ^ 31) in H. lia.
Qed.

Lemma sval_of_int (z : Z) : INT_MIN <= z <= INT_MAX -> sval (of_int z) = z.
Proof.
  intros H. unfold sval, of_int. apply word.signed_of_Z_nowrap.
  unfold INT_MIN, INT_MAX in H. change (2 ^ (32 - 1)) with (2 ^ 31). lia.
Qed.

Lemma sval_zero : sval (num_zero : int) = 0.
Proof. reflexivity. Qed.

#[export] Instance int_ordered : OrderedKind int.
Proof.
  split; cbn [num_ltb num_leb num_eqb num_add num_sub int_kind]; intros.
  - rewrite int_lts. apply Z.ltb_irrefl.
  - rewrite int_lts in *. apply Z.ltb_lt. apply Z.ltb_lt in H, H0. lia.
  - rewrite int_lts in *. apply sval_inj.
    apply Z.ltb_ge in H, H0. lia.
  - reflexivity.
  - split; [apply word.eqb_true | apply word.eqb_eq].
  - int_ring.
  - int_ring.
Qed.

(** ** Facts that hold for every ordered kind *)

Section OrderedFacts.
Context {T : Type} {K : Numeric T} {L : OrderedKind T}.

Lemma ltb_asym (a b : T) : num_ltb a b = true -> num_ltb b a = false.
Proof.
  intros Hab. destruct (num_ltb b a) eqn:Hba; [|reflexivity].
  rewrite <- (ltb_irrefl a). symmetry. now apply ltb_trans with b.
Qed.

Lemma le_refl (a : T) : le a a.
Proof. apply ltb_irrefl. Qed.

Lemma lt_le (a b : T) : num_ltb a b = true -> le a b.
Proof. apply ltb_asym. Qed.

Lemma le_trans (a b c : T) : le a b -> le b c -> le a c.
Proof.
  unfold le. intros Hab Hbc.
  destruct (num_ltb c a) eqn:Hca; [|reflexivity].
  destruct (num_ltb a b) eqn:Hlt.
  - rewrite <- Hbc. symmetry. now apply ltb_trans with a.
  - rewrite (ltb_total a b Hlt Hab) in Hca. congruence.
Qed.

Lemma le_antisym (a b : T) : le a b -> le b a -> a = b.
Proof. unfold le. intros Hab Hba. now apply ltb_total. Qed.

Lemma leb_le (a b : T) : num_leb a b = true <-> le a b.
Proof.
  unfold le. rewrite leb_ltb. destruct (num_ltb b a); simpl; split; congruence.
Qed.

Lemma std_min_le_l (a b : T) : le (std_min a b) a.
Proof.
  unfold std_min. destruct (num_ltb b a) eqn:H; [now apply lt_le | apply le_refl].
Qed.

Lemma std_min_le_r (a b : T) : le (std_min a b) b.
Proof. unfold std_min. destruct (num_ltb b a) eqn:H; [apply le_refl | exact H]. Qed.

Lemma std_max_le_l (a b : T) : le a (std_max a b).
Proof.
  unfold std_max. destruct (num_ltb a b) eqn:H; [now apply lt_le | apply le_refl].
Qed.

Lemma std_max_le_r (a b : T) : le b (std_max a b).
Proof. unfold std_max. destruct (num_ltb a b) eqn:H; [apply le_refl | exact H]. Qed.

Lemma std_max_comm (a b : T) : std_max a b = std_max b a.
Proof.
  unfold std_max. destruct (num_ltb a b) eqn:Hab, (num_ltb b a) eqn:Hba;
    try reflexivity.
  - apply ltb_asym in Hab. congruence.
  - symmetry. now apply ltb_total.
Qed.

Lemma std_min_comm (a b : T) : std_min a b = std_min b a.
Proof.
  unfold std_min. destruct (num_ltb a b) eqn:Hab, (num_ltb b a) eqn:Hba;
    try reflexivity.
  - apply ltb_asym in Hab. congruence.
  - now apply ltb_total.
Qed.

(** The far edges: [X() + Dx()] is [max.x] and [Y() + Dy()] is [max.y]. *)
Lemma far_x (r : RectT T) : num_add (X r) (Dx r) = x (max r).
Proof. unfold X, Dx. apply add_sub_cancel. Qed.

Lemma far_y (r : RectT T) : num_add (Y r) (Dy r) = y (max r).
Proof. unfold Y, Dy. apply add_sub_cancel. Qed.

Lemma Dx_Rect (x0 y0 w h : T) : Dx (Rect x0 y0 w h) = w.
Proof. unfold Dx, Rect. simpl. apply sub_add_cancel. Qed.

Lemma Dy_Rect (x0 y0 w h : T) : Dy (Rect x0 y0 w h) = h.
Proof. unfold Dy, Rect. simpl. apply sub_add_cancel. Qed.

(** A rectangle built from a start and the distance to an end has
    that end as its far corner. *)
Lemma Rect_span (x0 y0 x1 y1 : T) :
  Rect x0 y0 (num_sub x1 x0) (num_sub y1 y0) =
  mkRectT (mkPoint x0 y0) (mkPoint x1 y1).
Proof. unfold Rect. now rewrite !add_sub_cancel. Qed.

(** [Contains] in terms of the two corners. *)
Lemma Contains_corners (r : RectT T) (p : PointT T) :
  Contains r p = true <->
  le (x (min r)) (x p) /\ le (x p) (x (max r)) /\
  le (y (min r)) (y p) /\ le (y p) (y (max r)).
Proof.
  unfold Contains, le, num_gtb. rewrite far_x, far_y. unfold X, Y.
  destruct (num_ltb (x p) (x (min r))), (num_ltb (x (max r)) (x p)),
    (num_ltb (y p) (y (min r))), (num_ltb (y (max r)) (y p));
    intuition congruence.
Qed.

Lemma Union_cases (a b : RectT T) :
  Union a b =
  if both_nonpositive a then b
  else if both_nonpositive b then a
  else hull a b.
Proof.
  unfold Union, both_nonpositive, hull.
  destruct (num_leb (Dx a) num_zero && num_leb (Dy a) num_zero); [reflexivity|].
  destruct (num_leb (Dx b) num_zero && num_leb (Dy b) num_zero); [reflexivity|].
  rewrite !far_x, !far_y. apply Rect_span.
Qed.

Lemma hull_Contains_l (a b : RectT T) (p : PointT T) :
  Contains a p = true -> Contains (hull a b) p = true.
Proof.
  rewrite !Contains_corners. unfold hull, X, Y. simpl.
  intros (H1 & H2 & H3 & H4). repeat split.
  - eapply le_trans; [apply std_min_le_l | exact H1].
  - eapply le_trans; [exact H2 | apply std_max_le_l].
  - eapply le_trans; [apply std_min_le_l | exact H3].
  - eapply le_trans; [exact H4 | apply std_max_le_l].
Qed.

Lemma hull_Contains_r (a b : RectT T) (p : PointT T) :
  Contains b p = true -> Contains (hull a b) p = true.
Proof.
  rewrite !Contains_corners. unfold hull, X, Y. simpl.
  intros (H1 & H2 & H3 & H4). repeat split.
  - eapply le_trans; [apply std_min_le_r | exact H1].
  - eapply le_trans; [exact H2 | apply std_max_le_r].
  - eapply le_trans; [apply std_min_le_r | exact H3].
  - eapply le_trans; [exact H4 | apply std_max_le_r].
Qed.

Lemma Intersect_comm (a b : RectT T) : Intersect a b = Intersect b a.
Proof.
  unfold Intersect.
  now rewrite (std_max_comm (X a)), (std_max_comm (Y a)),
    (std_min_comm (num_add (X a) (Dx a))), (std_min_comm (num_add (Y a) (Dy a))).
Qed.

Lemma Rect_eq_refl (a : RectT T) : Rect_eq a a = true.
Proof.
  unfold Rect_eq. now rewrite !(proj2 (eqb_eq _ _) eq_refl).
Qed.

Lemma Rect_eq_true (a b : RectT T) : Rect_eq a b = true <-> a = b.
Proof.
  split; [|intros ->; apply Rect_eq_refl].
  unfold Rect_eq. rewrite !andb_true_iff, !eqb_eq.
  intros [[[Hx Hy] Hdx] Hdy].
  destruct a as [[ax ay] [bx by_]], b as [[cx cy] [ex ey]].
  unfold X, Y, Dx, Dy in *. simpl in *. subst cx cy.
  assert (bx = ex) by (rewrite <- (add_sub_cancel ax bx), Hdx; apply add_sub_cancel).
  assert (by_ = ey) by (rewrite <- (add_sub_cancel ay by_), Hdy; apply add_sub_cancel).
  now subst.
Qed.

End OrderedFacts.

(** ** The integer kind, in terms of values *)

Lemma int_le (a b : int) : le a b <-> sval a <= sval b.
Proof.
  unfold le. cbn [num_ltb int_kind]. rewrite int_lts. apply Z.ltb_ge.
Qed.

Lemma int_ltb (a b : int) : num_ltb a b = (sval a <? sval b).
Proof. apply int_lts. Qed.

Lemma int_leb (a b : int) : num_leb a b = (sval a <=? sval b).
Proof.
  cbn [num_leb int_kind]. rewrite int_lts.
  destruct (Z.ltb_spec (sval b) (sval a)), (Z.leb_spec (sval a) (sval b));
    simpl; try reflexivity; lia.
Qed.

Lemma int_eqb (a b : int) : num_eqb a b = (sval a =? sval b).
Proof. apply word.signed_eqb. Qed.

Lemma int_both_nonpositive (r : RectI) :
  both_nonpositive r = (sval (Dx r) <=? 0) && (sval (Dy r) <=? 0).
Proof. unfold both_nonpositive. now rewrite !int_leb, sval_zero. Qed.

Lemma int_Contains (r : RectI) (p : PointI) :
  Contains r p = true <->
  sval (x (min r)) <= sval (x p) <= sval (x (max r)) /\
  sval (y (min r)) <= sval (y p) <= sval (y (max r)).
Proof. rewrite Contains_corners, !int_le. tauto. Qed.

Lemma int_std_max (a b : int) : sval (std_max a b) = Z.max (sval a) (sval b).
Proof.
  unfold std_max. rewrite int_ltb.
  destruct (Z.ltb_spec (sval a) (sval b)); lia.
Qed.

Lemma int_std_min (a b : int) : sval (std_min a b) = Z.min (sval a) (sval b).
Proof.
  unfold std_min. rewrite int_ltb.
  destruct (Z.ltb_spec (sval b) (sval a)); lia.
Qed.

Lemma sval_add (a b : int) : sval (num_add a b) = wrap32 (sval a + sval b).
Proof.
  unfold sval, wrap32. cbn [num_add num_sub num_neg int_kind].
  rewrite word.signed_add. reflexivity.
Qed.

Lemma sval_sub (a b : int) : sval (num_sub a b) = wrap32 (sval a - sval b).
Proof.
  unfold sval, wrap32. cbn [num_add num_sub num_neg int_kind].
  rewrite word.signed_sub. reflexivity.
Qed.

Lemma sval_neg (a : int) : sval (num_neg a) = wrap32 (- sval a).
Proof.
  unfold sval, wrap32. cbn [num_add num_sub num_neg int_kind].
  rewrite word.signed_opp. reflexivity.
Qed.

Lemma wrap32_small (z : Z) : INT_MIN <= z <= INT_MAX -> wrap32 z = z.
Proof.
  unfold wrap32, INT_MIN, INT_MAX. intros H.
  rewrite Z.mod_small; lia.
Qed.

(** ** Claims about integer rectangles *)

(** C1.  [Offset(dx, dy)] adds the offsets to [min] and leaves [max]
    where it was: [X()] and [Y()] move by [dx] and [dy], but [Width()]
    and [Height()] lose [dx] and [dy] instead of staying the same.  The
    rectangle (0, 0, 10, 10) offset by (5, 5) ends up as (5, 5, 5, 5). *)
Theorem C1_Offset_moves_min_only :
  (forall (r : RectI) (dx dy : int),
     X (Offset r dx dy) = num_add (X r) dx /\
     Y (Offset r dx dy) = num_add (Y r) dy /\
     Width (Offset r dx dy) = num_sub (Width r) dx /\
     Height (Offset r dx dy) = num_sub (Height r) dy) /\
  coords (RcI 0 0 10 10) = (0, 0, 10, 10) /\
  coords (Offset (RcI 0 0 10 10) (of_int 5) (of_int 5)) = (5, 5, 5, 5).
Proof.
  split; [|split; vm_compute; reflexivity].
  intros [[ax ay] [bx by_]] dx dy.
  unfold X, Y, Width, Height, Offset. cbn [min max x y].
  repeat split; int_ring.
Qed.

(** [Inflate], the other mutator, moves both corners: the width grows
    by [dx] on either side. *)
Lemma Inflate_moves_both_corners (r : RectI) (dx dy : int) :
  X (Inflate r dx dy) = num_sub (X r) dx /\
  Y (Inflate r dx dy) = num_sub (Y r) dy /\
  Width (Inflate r dx dy) = num_add (num_add (Width r) dx) dx /\
  Height (Inflate r dx dy) = num_add (num_add (Height r) dy) dy.
Proof.
  destruct r as [[ax ay] [bx by_]].
  unfold X, Y, Width, Height, Inflate. cbn [min max x y].
  repeat split; int_ring.
Qed.

(** C3 (a point of [a] or of [b] is a point of [Union(a, b)]) does not
    hold as stated: the rectangle (0, 0, 0, 0) contains the point
    (0, 0), yet its union with (5, 5, 1, 1) is (5, 5, 1, 1), which does
    not. *)
Lemma C3_Union_drops_zero_size_operand :
  Contains (RcI 0 0 0 0) (PtI 0 0) = true /\
  Union (RcI 0 0 0 0) (RcI 5 5 1 1) = RcI 5 5 1 1 /\
  Contains (Union (RcI 0 0 0 0) (RcI 5 5 1 1)) (PtI 0 0) = false.
Proof. vm_compute. repeat split; reflexivity. Qed.

(** C3, amended.  For integer rectangles, [Union(a, b)] contains
    every point of an operand that has a positive extent on at least
    one axis, and every point of [b] when [a] has both extents
    [<= 0]. *)
Theorem C3_Union_contains_operands (a b : RectI) (p : PointI) :
  (Contains a p = true /\ (0 < sval (Dx a) \/ 0 < sval (Dy a))) \/
  (Contains b p = true /\ (0 < sval (Dx b) \/ 0 < sval (Dy b))) \/
  (Contains b p = true /\ sval (Dx a) <= 0 /\ sval (Dy a) <= 0) ->
  Contains (Union a b) p = true.
Proof.
  rewrite Union_cases, !int_both_nonpositive.
  intros [[Ha Hpos] | [[Hb Hpos] | [Hb [Hx Hy]]]].
  - replace ((sval (Dx a) <=? 0) && (sval (Dy a) <=? 0)) with false
      by (symmetry; apply andb_false_iff; rewrite !Z.leb_gt; exact Hpos).
    destruct (_ && _); [exact Ha | now apply hull_Contains_l].
  - replace ((sval (Dx b) <=? 0) && (sval (Dy b) <=? 0)) with false
      by (symmetry; apply andb_false_iff; rewrite !Z.leb_gt; exact Hpos).
    destruct (_ && _); [exact Hb | now apply hull_Contains_r].
  - replace ((sval (Dx a) <=? 0) && (sval (Dy a) <=? 0)) with true
      by (symmetry; apply andb_true_iff; rewrite !Z.leb_le; tauto).
    exact Hb.
Qed.

Lemma C3_Union_contains_operands_witness :
  Contains (Union (RcI 0 0 10 10) (RcI 5 5 10 10)) (PtI 15 15) = true.
Proof.
  apply (C3_Union_contains_operands (RcI 0 0 10 10) (RcI 5 5 10 10) (PtI 15 15)).
  right; left. split; [vm_compute; reflexivity | left; vm_compute; reflexivity].
Defined.

(** The integer kind is needed: for [RectT<double>] the far edge of
    the union is the rounded sum [_x + _dx].  Both rectangles below
    have positive extents, the first contains the point
    (0.5 + 2^-53, 0), and their union, which ends at 0.5, does not. *)
Example Union_double_loses_point :
  num_ltb num_zero (Dx rect_to_above_half) = true /\
  num_ltb num_zero (Dx rect_from_minus_one) = true /\
  Contains rect_to_above_half (mkPoint just_above_half (dbl 0 0)) = true /\
  Contains (Union rect_to_above_half rect_from_minus_one)
           (mkPoint just_above_half (dbl 0 0)) = false.
Proof. vm_compute. repeat split; reflexivity. Qed.

(** C5 (otherwise the result takes the max of the ends) does not hold
    as stated for [RectT<double>]: neither rectangle below takes the
    shortcut, the larger of their ends [X + Dx] is 0.5 + 2^-53, and
    the union, whose far edge is the sum [_x + _dx] = -1 + 1.5, ends
    at 0.5, which is less. *)
Lemma C5_Union_double_far_edge_rounds :
  both_nonpositive rect_to_above_half = false /\
  both_nonpositive rect_from_minus_one = false /\
  std_max (num_add (X rect_to_above_half) (Dx rect_to_above_half))
          (num_add (X rect_from_minus_one) (Dx rect_from_minus_one)) =
    just_above_half /\
  x (max (Union rect_to_above_half rect_from_minus_one)) = half /\
  num_add (X (Union rect_to_above_half rect_from_minus_one))
          (Dx (Union rect_to_above_half rect_from_minus_one)) = half /\
  num_ltb half just_above_half = true.
Proof. vm_compute. repeat split; reflexivity. Qed.

(** C5, amended.  For integer rectangles, [Union(a, b)] is [b] when
    both extents of [a] are [<= 0]; otherwise it is [a] when both
    extents of [b] are [<= 0]; otherwise its start is the minimum of
    the starts and its end the maximum of the ends, per axis.  A
    rectangle of width 0 and height 5 does not take the shortcut. *)
Theorem C5_Union_shortcut_needs_both_extents :
  (forall a b : RectI,
     Union a b =
     if (sval (Dx a) <=? 0) && (sval (Dy a) <=? 0) then b
     else if (sval (Dx b) <=? 0) && (sval (Dy b) <=? 0) then a
     else mkRectT (mkPoint (std_min (X a) (X b)) (std_min (Y a) (Y b)))
                  (mkPoint (std_max (num_add (X a) (Dx a)) (num_add (X b) (Dx b)))
                           (std_max (num_add (Y a) (Dy a)) (num_add (Y b) (Dy b))))) /\
  coords (Union (RcI 0 0 0 5) (RcI 10 10 1 1)) = (0, 0, 11, 11) /\
  coords (Union (RcI 10 10 1 1) (RcI 0 0 0 5)) = (0, 0, 11, 11) /\
  coords (Union (RcI 0 0 0 0) (RcI 10 10 1 1)) = (10, 10, 1, 1) /\
  coords (Union (RcI 10 10 1 1) (RcI 0 0 (-3) 0)) = (10, 10, 1, 1).
Proof.
  split; [|vm_compute; repeat split; reflexivity].
  intros a b. rewrite Union_cases, !int_both_nonpositive, !far_x, !far_y.
  reflexivity.
Qed.

(** C7.  [Intersect(a, b) == Intersect(b, a)]. *)
Theorem C7_Intersect_commutative (a b : RectI) :
  Rect_eq (Intersect a b) (Intersect b a) = true.
Proof. rewrite (Intersect_comm a b). apply Rect_eq_refl. Qed.

(** C8.  [Contains] is closed on the far edges: [r.Contains(p)] holds
    iff [X <= px <= X + Width] and [Y <= py <= Y + Height], for every
    rectangle (so for those with non-negative extents); the sums are
    the [int] sums the source computes.  (0, 0, 10, 10) contains
    (10, 10). *)
Theorem C8_Contains_closed_on_far_edges :
  (forall (r : RectI) (p : PointI),
     Contains r p = true <->
     sval (X r) <= sval (x p) <= sval (num_add (X r) (Width r)) /\
     sval (Y r) <= sval (y p) <= sval (num_add (Y r) (Height r))) /\
  Contains (RcI 0 0 10 10) (PtI 10 10) = true /\
  Contains (RcI 0 0 10 10) (PtI 11 10) = false.
Proof.
  split; [|vm_compute; split; reflexivity].
  intros r p. rewrite int_Contains.
  change (Width r) with (Dx r). change (Height r) with (Dy r).
  rewrite far_x, far_y. unfold X, Y. tauto.
Qed.

(** C9.  A point is empty iff [x == 0] and [y == 0]; a size is empty
    iff [dx == 0] or [dy == 0].  [Size(0, 5)] is empty, [Point(0, 5)]
    is not. *)
Theorem C9_Point_and_Size_emptiness :
  (forall x y : int,
     Point_empty (mkPoint x y) = true <-> sval x = 0 /\ sval y = 0) /\
  (forall dx dy : int,
     Size_IsEmpty (mkSize dx dy) = true <-> sval dx = 0 \/ sval dy = 0) /\
  Size_IsEmpty (SzI 0 5) = true /\
  Point_empty (PtI 0 5) = false.
Proof.
  split; [|split; [|vm_compute; split; reflexivity]].
  - intros x y. unfold Point_empty. cbn [geomutil.x geomutil.y].
    rewrite andb_true_iff, !int_eqb, !Z.eqb_eq, sval_zero. tauto.
  - intros dx dy. unfold Size_IsEmpty. cbn [geomutil.dx geomutil.dy].
    rewrite orb_true_iff, !int_eqb, !Z.eqb_eq, sval_zero. tauto.
Qed.

Lemma Intersect_locals (a b : RectI) :
  Intersect a b =
  if (sval (isect_dx a b) <=? 0) || (sval (isect_dy a b) <=? 0)
  then Rect_default
  else mkRectT (mkPoint (isect_x a b) (isect_y a b))
               (mkPoint (isect_end_x a b) (isect_end_y a b)).
Proof.
  unfold Intersect. fold (isect_x a b) (isect_y a b).
  fold (isect_end_x a b) (isect_end_y a b).
  fold (isect_dx a b) (isect_dy a b).
  rewrite !int_leb, sval_zero.
  destruct (_ || _); [reflexivity|]. apply Rect_span.
Qed.

Lemma wrap32_pos (z : Z) :
  INT_MIN <= z <= 2 ^ 32 - 1 -> 0 < wrap32 z -> 0 < z <= INT_MAX.
Proof.
  unfold wrap32, INT_MIN, INT_MAX. intros H Hpos.
  assert (z <= 2 ^ 31 - 1 \/ 2 ^ 31 <= z) as [Hs | Hb] by lia.
  { rewrite Z.mod_small in Hpos; lia. }
  exfalso.
  replace (z + 2 ^ 31) with ((z - 2 ^ 31) + 1 * 2 ^ 32) in Hpos by lia.
  rewrite Z.mod_add, Z.mod_small in Hpos; lia.
Qed.

(** C4 (rectangles that do not overlap intersect in the all-zero
    rectangle) is not what the code does at the ends of the [int]
    range, against the comment above [Intersect], "Returns an empty
    rectangle if there's no intersection": the rectangles below share
    no point, yet the difference [min of ends - max of starts] wraps
    around to 3 and [Intersect] returns a rectangle of width 3 and
    height 1. *)
Lemma C4_Intersect_disjoint_not_empty :
  (forall p : PointI,
     Contains (RcI 2147483646 0 1 1) p = true ->
     Contains (RcI (-2147483648) 0 1 1) p = false) /\
  coords (Intersect (RcI 2147483646 0 1 1) (RcI (-2147483648) 0 1 1)) =
    (2147483646, 0, 3, 1).
Proof.
  split; [|vm_compute; reflexivity].
  intros p Ha. apply not_true_is_false. intros Hb.
  apply int_Contains in Ha, Hb.
  change (sval (x (min (RcI 2147483646 0 1 1)))) with 2147483646 in Ha.
  change (sval (x (max (RcI (-2147483648) 0 1 1)))) with (-2147483647) in Hb.
  lia.
Qed.

(** X30.  For integer rectangles, [Intersect(a, b)] starts at the
    maximum of the starts and ends at the minimum of the ends, per
    axis; when the width or height so obtained (an [int] difference)
    is [<= 0] it is the all-zero rectangle; its extents are never
    negative; and rectangles that share no point give the all-zero
    rectangle provided neither difference [end - start] falls below
    [INT_MIN]. *)
Theorem X30_Intersect_is_overlap_without_overflow (a b : RectI) :
  Intersect a b =
    (if (sval (isect_dx a b) <=? 0) || (sval (isect_dy a b) <=? 0)
     then Rect_default
     else mkRectT (mkPoint (isect_x a b) (isect_y a b))
                  (mkPoint (isect_end_x a b) (isect_end_y a b))) /\
  coords Rect_default = (0, 0, 0, 0) /\
  0 <= sval (Width (Intersect a b)) /\
  0 <= sval (Height (Intersect a b)) /\
  (INT_MIN <= sval (isect_end_x a b) - sval (isect_x a b) ->
   INT_MIN <= sval (isect_end_y a b) - sval (isect_y a b) ->
   (forall p : PointI, Contains a p = true -> Contains b p = false) ->
   Intersect a b = Rect_default).
Proof.
  split; [apply Intersect_locals|]. split; [reflexivity|].
  rewrite Intersect_locals.
  destruct (Z.leb_spec (sval (isect_dx a b)) 0) as [Hdx | Hdx];
    [repeat split; try (vm_compute; congruence); reflexivity|].
  destruct (Z.leb_spec (sval (isect_dy a b)) 0) as [Hdy | Hdy];
    [repeat split; try (vm_compute; congruence); reflexivity|].
  cbn [orb]. unfold Width, Height. cbn [min max x y].
  fold (isect_dx a b) (isect_dy a b).
  split; [lia|]. split; [lia|].
  intros Hx Hy Hdisj. exfalso.
  pose proof (sval_range (isect_end_x a b)). pose proof (sval_range (isect_x a b)).
  pose proof (sval_range (isect_end_y a b)). pose proof (sval_range (isect_y a b)).
  unfold isect_dx in Hdx. unfold isect_dy in Hdy. rewrite sval_sub in Hdx, Hdy.
  apply wrap32_pos in Hdx; [|unfold INT_MIN, INT_MAX in *; lia].
  apply wrap32_pos in Hdy; [|unfold INT_MIN, INT_MAX in *; lia].
  assert (Ha : Contains a (mkPoint (isect_x a b) (isect_y a b)) = true).
  { apply int_Contains. cbn [x y].
    unfold isect_end_x, isect_end_y, isect_x, isect_y in *.
    rewrite !far_x, !far_y in *. rewrite !int_std_max, !int_std_min in *.
    unfold X, Y in *. lia. }
  assert (Hb : Contains b (mkPoint (isect_x a b) (isect_y a b)) = true).
  { apply int_Contains. cbn [x y].
    unfold isect_end_x, isect_end_y, isect_x, isect_y in *.
    rewrite !far_x, !far_y in *. rewrite !int_std_max, !int_std_min in *.
    unfold X, Y in *. lia. }
  rewrite (Hdisj _ Ha) in Hb. discriminate.
Qed.

Lemma X30_Intersect_is_overlap_without_overflow_witness :
  Intersect (RcI 0 0 10 10) (RcI 20 0 10 10) = Rect_default.
Proof.
  apply (X30_Intersect_is_overlap_without_overflow (RcI 0 0 10 10) (RcI 20 0 10 10)).
  - vm_compute. congruence.
  - vm_compute. congruence.
  - intros p Ha. apply not_true_is_false. intros Hb.
    apply int_Contains in Ha, Hb.
    change (sval (x (max (RcI 0 0 10 10)))) with 10 in Ha.
    change (sval (x (min (RcI 20 0 10 10)))) with 20 in Hb.
    lia.
Defined.

Lemma FromXY_axes (xs ys xe ye : int) :
  FromXY xs ys xe ye =
  Rect (fst (from_axis xs xe)) (fst (from_axis ys ye))
       (snd (from_axis xs xe)) (snd (from_axis ys ye)).
Proof.
  unfold FromXY, from_axis.
  destruct (num_ltb (num_sub xe xs) num_zero), (num_ltb (num_sub ye ys) num_zero);
    reflexivity.
Qed.

Lemma from_axis_nonneg (s e : int) :
  sval (num_sub e s) <> INT_MIN -> 0 <= sval (snd (from_axis s e)).
Proof.
  intros Hd. unfold from_axis. rewrite int_ltb, sval_zero.
  pose proof (sval_range (num_sub e s)) as Hr.
  destruct (Z.ltb_spec (sval (num_sub e s)) 0) as [Hneg | Hpos]; cbn [snd].
  - rewrite sval_neg, wrap32_small; unfold INT_MIN, INT_MAX in *; lia.
  - exact Hpos.
Qed.

Lemma from_axis_sym (s e : int) :
  sval (num_sub e s) <> INT_MIN -> from_axis s e = from_axis e s.
Proof.
  intros Hd. unfold from_axis.
  assert (Hopp : num_sub s e = num_neg (num_sub e s)) by int_ring.
  assert (Hinv : num_neg (num_neg (num_sub e s)) = num_sub e s) by int_ring.
  rewrite Hopp, Hinv, !int_ltb, sval_zero.
  pose proof (sval_range (num_sub e s)) as Hr.
  assert (Hn : sval (num_neg (num_sub e s)) = - sval (num_sub e s))
    by (rewrite sval_neg, wrap32_small; unfold INT_MIN, INT_MAX in *; lia).
  rewrite Hn.
  destruct (Z.ltb_spec (sval (num_sub e s)) 0) as [Hneg | Hpos],
           (Z.ltb_spec (- sval (num_sub e s)) 0) as [Hneg' | Hpos'];
    try reflexivity; try lia.
  assert (Hz : sval (num_sub e s) = sval (num_zero : int))
    by (rewrite sval_zero; lia).
  apply sval_inj in Hz.
  assert (He : e = s).
  { rewrite <- (add_sub_cancel s e), Hz. int_ring. }
  rewrite He. f_equal.
  rewrite He in Hz. rewrite Hz. int_ring.
Qed.

(** C6 ([FromXY] of any two corners has non-negative extents and does
    not depend on their order) does not hold as stated when a
    coordinate difference is [INT_MIN], whose negation wraps around to
    [INT_MIN]: the corners (0, 0) and (INT_MIN, 0) give a rectangle of
    width [INT_MIN], and swapping the corners gives a different
    rectangle. *)
Lemma C6_FromXY_INT_MIN_difference :
  coords (FromXY_pt (PtI 0 0) (PtI (-2147483648) 0)) =
    (-2147483648, 0, -2147483648, 0) /\
  coords (FromXY_pt (PtI (-2147483648) 0) (PtI 0 0)) =
    (0, 0, -2147483648, 0) /\
  Rect_eq (FromXY_pt (PtI 0 0) (PtI (-2147483648) 0))
          (FromXY_pt (PtI (-2147483648) 0) (PtI 0 0)) = false.
Proof. vm_compute. repeat split; reflexivity. Qed.

(** C6, amended.  When neither coordinate difference [p2.x - p1.x],
    [p2.y - p1.y] (an [int] difference) is [INT_MIN], [FromXY(p1, p2)]
    has non-negative width and height and equals [FromXY(p2, p1)]. *)
Theorem C6_FromXY_normalizes (p1 p2 : PointI) :
  sval (num_sub (x p2) (x p1)) <> INT_MIN ->
  sval (num_sub (y p2) (y p1)) <> INT_MIN ->
  0 <= sval (Width (FromXY_pt p1 p2)) /\
  0 <= sval (Height (FromXY_pt p1 p2)) /\
  Rect_eq (FromXY_pt p1 p2) (FromXY_pt p2 p1) = true.
Proof.
  intros Hx Hy. unfold FromXY_pt. rewrite !FromXY_axes.
  change (Width ?r) with (Dx r). change (Height ?r) with (Dy r).
  rewrite Dx_Rect, Dy_Rect.
  split; [now apply from_axis_nonneg|]. split; [now apply from_axis_nonneg|].
  rewrite (from_axis_sym (x p1) (x p2) Hx), (from_axis_sym (y p1) (y p2) Hy).
  apply Rect_eq_refl.
Qed.

Lemma C6_FromXY_normalizes_witness :
  0 <= sval (Width (FromXY_pt (PtI 7 1) (PtI 3 4))) /\
  0 <= sval (Height (FromXY_pt (PtI 7 1) (PtI 3 4))) /\
  Rect_eq (FromXY_pt (PtI 7 1) (PtI 3 4)) (FromXY_pt (PtI 3 4) (PtI 7 1)) = true.
Proof.
  apply (C6_FromXY_normalizes (PtI 7 1) (PtI 3 4)); vm_compute; congruence.
Defined.

Example FromXY_concrete :
  coords (FromXY_pt (PtI 7 1) (PtI 3 4)) = (3, 1, 4, 3).
Proof. vm_compute. reflexivity. Qed.

(** C2 ([Round(r)] contains every point of [r]) does not hold as
    stated: [floor(X + FLT_EPSILON)] is above [X] when [X] is less
    than [FLT_EPSILON] below an integer.  The corner
    (1 - 2^-24, 0) is a point of the rectangle, the rounded rectangle
    is (1, 0, 1, 1), and it does not cover the corner; nor does the
    [RectD] (1, 0, 1, 1) contain it. *)
Lemma C2_Round_leaves_out_near_corner :
  Contains rect_below_one corner_below_one = true /\
  Round rect_below_one = Some (RcI 1 0 1 1) /\
  covers (RcI 1 0 1 1) corner_below_one = false /\
  Contains (Rect (dbl 1 0) (dbl 0 0) (dbl 1 0) (dbl 1 0)) corner_below_one = false.
Proof. vm_compute. repeat split; reflexivity. Qed.

Lemma to_int_reach (z : Z) :
  - 10 ^ 9 <= z <= 10 ^ 9 -> to_int z = Some (of_int z) /\ sval (of_int z) = z.
Proof.
  intros H. unfold to_int.
  assert (Hr : INT_MIN <= z <= INT_MAX) by (unfold INT_MIN, INT_MAX; lia).
  destruct (Z.leb_spec INT_MIN z), (Z.leb_spec z INT_MAX); try lia.
  split; [reflexivity | now apply sval_of_int].
Qed.

Lemma reach_bounds (q : Q) :
  Qle_bool (inject_Z (- 10 ^ 9)) q && Qle_bool q (inject_Z (10 ^ 9)) = true ->
  - 10 ^ 9 <= Qfloor q <= 10 ^ 9 /\ - 10 ^ 9 <= Qceiling q <= 10 ^ 9.
Proof.
  rewrite andb_true_iff, !Qle_bool_iff. intros [Hlo Hhi].
  pose proof (Qfloor_resp_le _ _ Hlo) as H1. pose proof (Qfloor_resp_le _ _ Hhi) as H2.
  pose proof (Qceiling_resp_le _ _ Hlo) as H3. pose proof (Qceiling_resp_le _ _ Hhi) as H4.
  rewrite Qfloor_Z in H1, H2. rewrite Qceiling_Z in H3, H4. lia.
Qed.

Lemma from_axis_ordered (s e : int) :
  sval s <= sval e -> sval e - sval s <= INT_MAX ->
  from_axis s e = (s, num_sub e s).
Proof.
  intros Hle Hd. unfold from_axis. rewrite int_ltb, sval_zero, sval_sub.
  pose proof (sval_range s). pose proof (sval_range e).
  rewrite wrap32_small by (unfold INT_MIN, INT_MAX in *; lia).
  destruct (Z.ltb_spec (sval e - sval s) 0); [lia | reflexivity].
Qed.

Lemma FromXY_ordered (xs ys xe ye : int) :
  sval xs <= sval xe -> sval xe - sval xs <= INT_MAX ->
  sval ys <= sval ye -> sval ye - sval ys <= INT_MAX ->
  FromXY xs ys xe ye = mkRectT (mkPoint xs ys) (mkPoint xe ye).
Proof.
  intros Hx Hdx Hy Hdy. rewrite FromXY_axes.
  rewrite (from_axis_ordered xs xe Hx Hdx), (from_axis_ordered ys ye Hy Hdy).
  cbn [fst snd]. apply Rect_span.
Qed.

Lemma between_floor_ceiling (a q b : Q) :
  Qle_bool a q && Qle_bool q b = true ->
  (inject_Z (Qfloor a) <= q)%Q /\ (q <= inject_Z (Qceiling b))%Q /\
  Qfloor a <= Qceiling b.
Proof.
  rewrite andb_true_iff, !Qle_bool_iff. intros [Ha Hb].
  assert (H1 : (inject_Z (Qfloor a) <= q)%Q)
    by (eapply Qle_trans; [apply Qfloor_le | exact Ha]).
  assert (H2 : (q <= inject_Z (Qceiling b))%Q)
    by (eapply Qle_trans; [exact Hb | apply Qle_ceiling]).
  repeat split; try assumption.
  rewrite Zle_Qle. now apply Qle_trans with q.
Qed.

(** C2, amended.  When the four edges [Round] rounds, [X + eps],
    [Y + eps], [X + Dx - eps] and [Y + Dy - eps], are finite and within
    a billion of zero, [Round(r)] is an integer rectangle that covers
    every point lying between those edges, that is every point of [r]
    at least [FLT_EPSILON] away from the rim. *)
Theorem C2_Round_covers_points_off_the_rim (r : RectD) :
  within_reach (near_x r) = true ->
  within_reach (near_y r) = true ->
  within_reach (far_x_eps r) = true ->
  within_reach (far_y_eps r) = true ->
  exists R : RectI,
    Round r = Some R /\
    forall p : PointD,
      between (near_x r) (x p) (far_x_eps r) = true ->
      between (near_y r) (y p) (far_y_eps r) = true ->
      covers R p = true.
Proof.
  unfold within_reach, between, Round.
  fold (near_x r) (near_y r) (far_x_eps r) (far_y_eps r).
  unfold floor_int, ceil_int.
  destruct (dval (near_x r)) as [ax|]; [|discriminate].
  destruct (dval (near_y r)) as [ay|]; [|discriminate].
  destruct (dval (far_x_eps r)) as [bx|]; [|discriminate].
  destruct (dval (far_y_eps r)) as [by_|]; [|discriminate].
  intros Hax Hay Hbx Hby.
  apply reach_bounds in Hax, Hay, Hbx, Hby.
  destruct (to_int_reach (Qfloor ax)) as [-> Sxs]; [tauto|].
  destruct (to_int_reach (Qfloor ay)) as [-> Sys]; [tauto|].
  destruct (to_int_reach (Qceiling bx)) as [-> Sxe]; [tauto|].
  destruct (to_int_reach (Qceiling by_)) as [-> Sye]; [tauto|].
  eexists. split; [reflexivity|].
  intros p Hpx Hpy. unfold covers.
  destruct (dval (x p)) as [qx|]; [|discriminate].
  destruct (dval (y p)) as [qy|]; [|discriminate].
  apply between_floor_ceiling in Hpx, Hpy.
  destruct Hpx as (Hx1 & Hx2 & Hx3). destruct Hpy as (Hy1 & Hy2 & Hy3).
  rewrite FromXY_ordered
    by (rewrite ?Sxs, ?Sys, ?Sxe, ?Sye; unfold INT_MAX; lia).
  rewrite far_x, far_y. unfold X, Y. cbn [min max x y].
  rewrite Sxs, Sys, Sxe, Sye.
  rewrite !andb_true_iff, !Qle_bool_iff. tauto.
Qed.

Lemma C2_Round_covers_points_off_the_rim_witness :
  exists R : RectI,
    Round rect_quarter = Some R /\
    forall p : PointD,
      between (near_x rect_quarter) (x p) (far_x_eps rect_quarter) = true ->
      between (near_y rect_quarter) (y p) (far_y_eps rect_quarter) = true ->
      covers R p = true.
Proof.
  apply (C2_Round_covers_points_off_the_rim rect_quarter);
    vm_compute; reflexivity.
Defined.

Example Round_concrete :
  option_map coords (Round rect_quarter) = Some (0, 0, 3, 3).
Proof. vm_compute. reflexivity. Qed.

(** A rectangle of width 2^32 has a far edge no [int] can hold: the
    cast in [Round] has no defined result. *)
Example Round_out_of_int_range :
  Round (Rect (dbl 0 0) (dbl 0 0) (dbl 1 32) (dbl 1 0)) = None.
Proof. vm_compute. reflexivity. Qed.

Example visit_leaf_and_parent :
  VisitTreeModelItems count_items
    (ptr_to (Item 1 [ptr_to (Item 2 []); ptr_to (Item 3 [])])) O =
  (Returns true, 3%nat).
Proof. reflexivity. Qed.

(** The loop of [VisitTreeItemRec] over [i = 0 .. ChildCount() - 1]
    meets the children in the order of the list. *)
Lemma children_by_index (id : Z) (cs : list TreePtr) :
  map (ChildAt (Item id cs)) (seq 0 (ChildCount (Item id cs))) = cs.
Proof.
  cbn [ChildAt ChildCount]. induction cs as [|c cs IH]; [reflexivity|].
  cbn [length seq map nth]. f_equal.
  rewrite <- seq_shift, map_map. exact IH.
Qed.

(** On an item none of whose descendants has a null child the visit
    returns, whatever the visitor does. *)
Lemma visit_returns {S : Type} (visitor : TreeItem -> S -> bool * S) :
  forall (t : TreeItem) (s : S),
    no_null_child t = true ->
    exists (b : bool) (s' : S),
      VisitTreeModelItems visitor (ptr_to t) s = (Returns b, s').
Proof.
  unfold VisitTreeModelItems.
  fix IH 1. intros [id cs] s Hnn. cbn [VisitTreeItemRec].
  destruct (visitor (Item id cs) s) as [cont s1].
  destruct cont; cbn [negb]; [|eauto].
  cbn [no_null_child] in Hnn. clear s. revert s1.
  induction cs as [|c cs IHcs]; intros s1; [eauto|].
  cbn [forallb] in Hnn. apply andb_true_iff in Hnn as [Hc Hcs].
  destruct c as [|t']; [discriminate|].
  destruct (IH t' s1 Hc) as (b & s2 & ->).
  destruct b; [apply IHcs, Hcs | eauto].
Qed.

(** C10.  Only the call of the visitor is inside the null check of
    [VisitTreeItemRec]; [ti->ChildCount()] comes after it and is
    evaluated for a null [ti] as well.  So for every visitor the call
    with a null item does not return [true]: it dereferences the null
    pointer, before the visitor is ever called. *)
Theorem C10_VisitTreeModelItems_null_dereferences :
  forall (S : Type) (visitor : TreeItem -> S -> bool * S) (s : S),
    VisitTreeModelItems visitor nullptr s = (NullDereference, s).
Proof. intros S visitor s. reflexivity. Qed.

(** ** More about integer rectangles *)

Lemma int_IsEmpty (r : RectI) :
  IsEmpty r = (sval (Dx r) =? 0) || (sval (Dy r) =? 0).
Proof. unfold IsEmpty. now rewrite !int_eqb, sval_zero. Qed.

Lemma std_max_same {T : Type} {K : Numeric T} {L : OrderedKind T} (a : T) :
  std_max a a = a.
Proof. unfold std_max. now destruct (num_ltb a a). Qed.

Lemma std_min_same {T : Type} {K : Numeric T} {L : OrderedKind T} (a : T) :
  std_min a a = a.
Proof. unfold std_min. now destruct (num_ltb a a). Qed.

Lemma Rect_of_accessors (r : RectI) : Rect (X r) (Y r) (Dx r) (Dy r) = r.
Proof.
  destruct r as [[ax ay] [bx by_]]. unfold X, Y, Dx, Dy. cbn [min max x y].
  apply Rect_span.
Qed.

(** X1.  The accessors give back what the constructor
    [RectT(x, y, dx, dy)] was given, also when [x + dx] or [y + dy]
    wraps around. *)
Theorem X1_Rect_accessors_return_constructor_arguments (x0 y0 w h : int) :
  X (Rect x0 y0 w h) = x0 /\ Y (Rect x0 y0 w h) = y0 /\
  Dx (Rect x0 y0 w h) = w /\ Dy (Rect x0 y0 w h) = h /\
  Width (Rect x0 y0 w h) = w /\ Height (Rect x0 y0 w h) = h.
Proof.
  change (Width ?r) with (Dx r). change (Height ?r) with (Dy r).
  rewrite !Dx_Rect, !Dy_Rect. repeat split; reflexivity.
Qed.

(** X2.  [SetDx(w)] makes [Dx()] return [w] and leaves [X()], [Y()]
    and [Dy()] alone; [SetDy(h)] likewise for [Dy()]. *)
Theorem X2_SetDx_SetDy_set_one_extent (r : RectI) (w h : int) :
  (Dx (SetDx r w) = w /\ X (SetDx r w) = X r /\
   Y (SetDx r w) = Y r /\ Dy (SetDx r w) = Dy r) /\
  (Dy (SetDy r h) = h /\ X (SetDy r h) = X r /\
   Y (SetDy r h) = Y r /\ Dx (SetDy r h) = Dx r).
Proof.
  destruct r as [[ax ay] [bx by_]].
  unfold X, Y, Dx, Dy, SetDx, SetDy. cbn [min max x y].
  repeat split; int_ring.
Qed.

(** X3.  [operator==] of points, sizes and rectangles holds exactly
    when the two values are the same; for rectangles, which compare
    [X], [Y], [Dx] and [Dy], that is when both corners agree.
    [operator!=] holds exactly when they differ. *)
Theorem X3_equality_operators_decide_equality :
  (forall a b : PointI, (Point_eq a b = true <-> a = b) /\
                        (Point_ne a b = true <-> a <> b)) /\
  (forall a b : SizeI, (Size_eq a b = true <-> a = b) /\
                       (Size_ne a b = true <-> a <> b)) /\
  (forall a b : RectI, (Rect_eq a b = true <-> a = b) /\
                       (Rect_ne a b = true <-> a <> b)).
Proof.
  assert (HP : forall a b : PointI, Point_eq a b = true <-> a = b).
  { intros [ax ay] [bx by_]. unfold Point_eq. cbn [x y].
    rewrite andb_true_iff, !eqb_eq. split; [intros [-> ->]; reflexivity|].
    intros H. injection H as -> ->. now split. }
  assert (HS : forall a b : SizeI, Size_eq a b = true <-> a = b).
  { intros [ax ay] [bx by_]. unfold Size_eq. cbn [dx dy].
    rewrite andb_true_iff, !eqb_eq. split; [intros [-> ->]; reflexivity|].
    intros H. injection H as -> ->. now split. }
  pose proof (@Rect_eq_true int _ _) as HR.
  repeat split; try apply HP; try apply HS; try apply HR;
    unfold Point_ne, Size_ne, Rect_ne; rewrite negb_true_iff.
  - intros Hf He. apply HP in He. congruence.
  - intros Hne. apply not_true_is_false. intros He. now apply Hne, HP.
  - intros Hf He. apply HS in He. congruence.
  - intros Hne. apply not_true_is_false. intros He. now apply Hne, HS.
  - intros Hf He. apply HR in He. congruence.
  - intros Hne. apply not_true_is_false. intros He. now apply Hne, HR.
Qed.

Lemma Intersect_result (a b : RectI) :
  (Intersect a b = Rect_default /\ IsEmpty (Intersect a b) = true) \/
  (Intersect a b = mkRectT (mkPoint (isect_x a b) (isect_y a b))
                           (mkPoint (isect_end_x a b) (isect_end_y a b)) /\
   0 < sval (isect_dx a b) /\ 0 < sval (isect_dy a b) /\
   IsEmpty (Intersect a b) = false).
Proof.
  rewrite Intersect_locals.
  destruct (Z.leb_spec (sval (isect_dx a b)) 0) as [Hdx | Hdx];
    [left; split; reflexivity|].
  destruct (Z.leb_spec (sval (isect_dy a b)) 0) as [Hdy | Hdy];
    [left; split; reflexivity|].
  right. cbn [orb]. repeat split; try assumption.
  rewrite int_IsEmpty. unfold Dx, Dy. cbn [min max x y].
  fold (isect_dx a b) (isect_dy a b).
  apply orb_false_iff. split; apply Z.eqb_neq; lia.
Qed.

(** X4.  When [Intersect(a, b)] is not empty, its points are exactly
    the points that [a] and [b] both contain. *)
Theorem X4_Intersect_nonempty_is_common_points (a b : RectI) (p : PointI) :
  IsEmpty (Intersect a b) = false ->
  (Contains (Intersect a b) p = true <->
   Contains a p = true /\ Contains b p = true).
Proof.
  intros Hne.
  destruct (Intersect_result a b) as [[_ He] | (Hr & _ & _ & _)]; [congruence|].
  rewrite Hr, !int_Contains. cbn [min max x y].
  unfold isect_x, isect_y, isect_end_x, isect_end_y.
  rewrite !far_x, !far_y, !int_std_max, !int_std_min. unfold X, Y. lia.
Qed.

Lemma X4_Intersect_nonempty_is_common_points_witness :
  Contains (Intersect (RcI 0 0 10 10) (RcI 5 5 10 10)) (PtI 7 9) = true <->
  Contains (RcI 0 0 10 10) (PtI 7 9) = true /\
  Contains (RcI 5 5 10 10) (PtI 7 9) = true.
Proof.
  apply (X4_Intersect_nonempty_is_common_points
           (RcI 0 0 10 10) (RcI 5 5 10 10) (PtI 7 9)).
  vm_compute. reflexivity.
Defined.

(** X5.  [Intersect] returns an empty rectangle only in the form of
    the all-zero rectangle: the result is [IsEmpty()] exactly when it
    is [RectT()], and otherwise both its extents are positive. *)
Theorem X5_Intersect_empty_only_as_zero_rectangle (a b : RectI) :
  (IsEmpty (Intersect a b) = true <-> Intersect a b = Rect_default) /\
  (IsEmpty (Intersect a b) = false ->
   0 < sval (Dx (Intersect a b)) /\ 0 < sval (Dy (Intersect a b))).
Proof.
  destruct (Intersect_result a b) as [[Hr He] | (Hr & Hdx & Hdy & Hne)].
  - split; [tauto | congruence].
  - split.
    + split; [congruence|]. intros Hd. rewrite Hd in Hne. discriminate.
    + intros _. rewrite Hr. unfold Dx, Dy. cbn [min max x y].
      fold (isect_dx a b) (isect_dy a b). lia.
Qed.

(** X6.  An integer rectangle intersected with itself is itself when
    both its extents are positive, and the all-zero rectangle
    otherwise: a rectangle of width or height [<= 0] is not kept. *)
Theorem X6_Intersect_with_itself (a : RectI) :
  Intersect a a =
  if (sval (Dx a) <=? 0) || (sval (Dy a) <=? 0) then Rect_default else a.
Proof.
  rewrite Intersect_locals.
  unfold isect_dx, isect_dy, isect_end_x, isect_end_y, isect_x, isect_y.
  rewrite !std_max_same, !std_min_same, !sub_add_cancel, !far_x, !far_y.
  destruct (_ || _); [reflexivity|]. now destruct a as [[ax ay] [bx by_]].
Qed.

(** The integer kind is needed: the [double] rectangle with the
    corners (2^-53, 0) and (1 + 2^-52, 1) has width 1 and height 1,
    and its intersection with itself has width 1 - 2^-53. *)
Example Intersect_with_itself_double_rounds :
  num_ltb num_zero (Dx rect_above_one) = true /\
  num_ltb num_zero (Dy rect_above_one) = true /\
  Dx rect_above_one = dbl 1 0 /\
  Dx (Intersect rect_above_one rect_above_one) = dbl (2 ^ 53 - 1) (-53) /\
  Rect_eq (Intersect rect_above_one rect_above_one) rect_above_one = false.
Proof. vm_compute. repeat split; reflexivity. Qed.

Lemma hull_same (a : RectI) : hull a a = a.
Proof.
  unfold hull. rewrite !std_max_same, !std_min_same.
  now destruct a as [[ax ay] [bx by_]].
Qed.

Lemma hull_comm (a b : RectI) : hull a b = hull b a.
Proof.
  unfold hull.
  now rewrite (std_min_comm (X a)), (std_min_comm (Y a)),
    (std_max_comm (x (max a))), (std_max_comm (y (max a))).
Qed.

(** X7.  [Union(a, a)] is [a].  The all-zero rectangle [RectT()] is a
    left unit of [Union]; on the right it is a unit only for
    rectangles with a positive extent: a rectangle with both extents
    [<= 0] united with [RectT()] gives [RectT()]. *)
Theorem X7_Union_idempotent_and_units (r : RectI) :
  Union r r = r /\
  Union Rect_default r = r /\
  Union r Rect_default =
    (if (sval (Dx r) <=? 0) && (sval (Dy r) <=? 0) then Rect_default else r).
Proof.
  rewrite !Union_cases, !int_both_nonpositive, hull_same.
  split; [now destruct (_ && _)|]. split; [reflexivity|].
  destruct (_ && _); reflexivity.
Qed.

(** X8.  [Union] is commutative as soon as one operand has a positive
    extent; when both operands have both extents [<= 0] it returns its
    second operand. *)
Theorem X8_Union_commutative_unless_both_skipped (a b : RectI) :
  (0 < sval (Dx a) \/ 0 < sval (Dy a) \/ 0 < sval (Dx b) \/ 0 < sval (Dy b) ->
   Union a b = Union b a) /\
  (sval (Dx a) <= 0 /\ sval (Dy a) <= 0 /\ sval (Dx b) <= 0 /\ sval (Dy b) <= 0 ->
   Union a b = b /\ Union b a = a).
Proof.
  rewrite !Union_cases, !int_both_nonpositive, (hull_comm b a).
  destruct (Z.leb_spec (sval (Dx a)) 0), (Z.leb_spec (sval (Dy a)) 0),
    (Z.leb_spec (sval (Dx b)) 0), (Z.leb_spec (sval (Dy b)) 0);
    cbn [andb]; split; intros; try tauto; try lia; try (split; reflexivity).
Qed.

Lemma X8_Union_commutative_unless_both_skipped_witness :
  Union (RcI 3 3 0 0) (RcI 5 5 1 0) = Union (RcI 5 5 1 0) (RcI 3 3 0 0) /\
  Union (RcI 3 3 0 0) (RcI 5 5 0 0) = RcI 5 5 0 0 /\
  Union (RcI 5 5 0 0) (RcI 3 3 0 0) = RcI 3 3 0 0.
Proof.
  split.
  - apply (proj1 (X8_Union_commutative_unless_both_skipped
                    (RcI 3 3 0 0) (RcI 5 5 1 0))).
    right; right; left. vm_compute. reflexivity.
  - apply (proj2 (X8_Union_commutative_unless_both_skipped
                    (RcI 3 3 0 0) (RcI 5 5 0 0))).
    vm_compute. repeat split; congruence.
Defined.

Lemma from_axis_exact (s e : int) :
  - INT_MAX <= sval e - sval s <= INT_MAX ->
  from_axis s e =
  if sval e <? sval s then (e, num_sub s e) else (s, num_sub e s).
Proof.
  intros Hd. unfold from_axis. rewrite int_ltb, sval_zero, sval_sub.
  rewrite wrap32_small by (unfold INT_MIN, INT_MAX in *; lia).
  destruct (Z.ltb_spec (sval e - sval s) 0), (Z.ltb_spec (sval e) (sval s));
    try lia; [|reflexivity].
  f_equal. int_ring.
Qed.

(** X9.  When the corner coordinates differ by at most [INT_MAX] on
    each axis, [FromXY(xs, ys, xe, ye)] is the bounding box of the two
    corners: it starts at the smaller and ends at the larger
    coordinate, its extents are the distances, and it contains both
    corners. *)
Theorem X9_FromXY_is_bounding_box (xs ys xe ye : int) :
  - INT_MAX <= sval xe - sval xs <= INT_MAX ->
  - INT_MAX <= sval ye - sval ys <= INT_MAX ->
  sval (X (FromXY xs ys xe ye)) = Z.min (sval xs) (sval xe) /\
  sval (Y (FromXY xs ys xe ye)) = Z.min (sval ys) (sval ye) /\
  sval (x (max (FromXY xs ys xe ye))) = Z.max (sval xs) (sval xe) /\
  sval (y (max (FromXY xs ys xe ye))) = Z.max (sval ys) (sval ye) /\
  sval (Dx (FromXY xs ys xe ye)) = Z.abs (sval xe - sval xs) /\
  sval (Dy (FromXY xs ys xe ye)) = Z.abs (sval ye - sval ys) /\
  Contains (FromXY xs ys xe ye) (mkPoint xs ys) = true /\
  Contains (FromXY xs ys xe ye) (mkPoint xe ye) = true.
Proof.
  intros Hx Hy. rewrite !int_Contains, FromXY_axes.
  rewrite (from_axis_exact xs xe Hx), (from_axis_exact ys ye Hy).
  rewrite Dx_Rect, Dy_Rect.
  pose proof (sval_range xs). pose proof (sval_range xe).
  pose proof (sval_range ys). pose proof (sval_range ye).
  destruct (Z.ltb_spec (sval xe) (sval xs)), (Z.ltb_spec (sval ye) (sval ys));
    cbn [fst snd]; rewrite Rect_span; unfold X, Y; cbn [min max x y];
    rewrite !sval_sub, !wrap32_small by (unfold INT_MIN, INT_MAX in *; lia);
    lia.
Qed.

Lemma X9_FromXY_is_bounding_box_witness :
  sval (X (FromXY (of_int 7) (of_int 1) (of_int 3) (of_int 4))) = Z.min 7 3 /\
  sval (Dx (FromXY (of_int 7) (of_int 1) (of_int 3) (of_int 4))) = Z.abs (3 - 7).
Proof.
  pose proof (X9_FromXY_is_bounding_box (of_int 7) (of_int 1) (of_int 3) (of_int 4))
    as H.
  change (sval (of_int 7)) with 7 in H. change (sval (of_int 3)) with 3 in H.
  change (sval (of_int 1)) with 1 in H. change (sval (of_int 4)) with 4 in H.
  unfold INT_MAX in H. specialize (H ltac:(lia) ltac:(lia)). tauto.
Defined.

(** X10.  [Inflate(dx, dy)] widens the rectangle by [dx] on either
    side and heightens it by [dy]; inflating twice adds the amounts,
    and inflating by the negated amounts gives the rectangle back. *)
Theorem X10_Inflate_adds_up_and_undoes (r : RectI) (d e d' e' : int) :
  Dx (Inflate r d e) = num_add (num_add (Dx r) d) d /\
  Dy (Inflate r d e) = num_add (num_add (Dy r) e) e /\
  Inflate (Inflate r d e) d' e' = Inflate r (num_add d d') (num_add e e') /\
  Inflate (Inflate r d e) (num_neg d) (num_neg e) = r.
Proof.
  destruct r as [[ax ay] [bx by_]].
  unfold Dx, Dy, Inflate. cbn [min max x y].
  split; [int_ring|]. split; [int_ring|].
  split; f_equal; f_equal; int_ring.
Qed.

(** X11.  Inflating by non-negative amounts keeps every point the
    rectangle contained, as long as the moved corners stay within the
    [int] range. *)
Theorem X11_Inflate_keeps_points (r : RectI) (d e : int) (p : PointI) :
  0 <= sval d -> 0 <= sval e ->
  INT_MIN <= sval (x (min r)) - sval d -> sval (x (max r)) + sval d <= INT_MAX ->
  INT_MIN <= sval (y (min r)) - sval e -> sval (y (max r)) + sval e <= INT_MAX ->
  Contains r p = true -> Contains (Inflate r d e) p = true.
Proof.
  intros Hd He Hx0 Hx1 Hy0 Hy1. rewrite !int_Contains.
  unfold Inflate. cbn [min max x y].
  pose proof (sval_range (x (min r))). pose proof (sval_range (x (max r))).
  pose proof (sval_range (y (min r))). pose proof (sval_range (y (max r))).
  rewrite !sval_sub, !sval_add, !wrap32_small
    by (unfold INT_MIN, INT_MAX in *; lia).
  lia.
Qed.

Lemma X11_Inflate_keeps_points_witness :
  Contains (Inflate (RcI 0 0 10 10) (of_int 2) (of_int 3)) (PtI 10 0) = true.
Proof.
  apply (X11_Inflate_keeps_points (RcI 0 0 10 10) (of_int 2) (of_int 3) (PtI 10 0));
    vm_compute; congruence.
Defined.

(** X12.  A rectangle contains some point exactly when its corners
    are in order on both axes ([min.x <= max.x] and [min.y <= max.y]),
    and then it contains both of its corners; a rectangle that
    [IsEmpty()] because one extent is zero still contains points. *)
Theorem X12_Contains_some_point_iff_corners_in_order (r : RectI) :
  ((exists p : PointI, Contains r p = true) <->
   sval (x (min r)) <= sval (x (max r)) /\
   sval (y (min r)) <= sval (y (max r))) /\
  ((exists p : PointI, Contains r p = true) ->
   Contains r (min r) = true /\ Contains r (max r) = true) /\
  (sval (Dx r) = 0 -> sval (y (min r)) <= sval (y (max r)) ->
   IsEmpty r = true /\ Contains r (min r) = true).
Proof.
  split; [|split].
  - split.
    + intros [p Hp]. apply int_Contains in Hp. lia.
    + intros H. exists (min r). apply int_Contains. lia.
  - intros [p Hp]. apply int_Contains in Hp. rewrite !int_Contains. lia.
  - intros Hz Hy. rewrite int_IsEmpty, Hz. split; [reflexivity|].
    apply int_Contains.
    assert (Hx : x (max r) = x (min r)).
    { rewrite <- (far_x r). unfold X.
      replace (Dx r) with (num_zero : int)
        by (apply sval_inj; rewrite sval_zero; congruence).
      int_ring. }
    rewrite Hx. lia.
Qed.

(** X13.  When the four edges [Round] rounds are finite and within a
    billion of zero, [Round(r)] is defined and has non-negative width
    and height, also for an [r] whose own extents are negative. *)
Theorem X13_Round_has_nonnegative_extents (r : RectD) :
  within_reach (near_x r) = true ->
  within_reach (near_y r) = true ->
  within_reach (far_x_eps r) = true ->
  within_reach (far_y_eps r) = true ->
  exists R : RectI,
    Round r = Some R /\ 0 <= sval (Dx R) /\ 0 <= sval (Dy R).
Proof.
  unfold within_reach, Round.
  fold (near_x r) (near_y r) (far_x_eps r) (far_y_eps r).
  unfold floor_int, ceil_int.
  destruct (dval (near_x r)) as [ax|]; [|discriminate].
  destruct (dval (near_y r)) as [ay|]; [|discriminate].
  destruct (dval (far_x_eps r)) as [bx|]; [|discriminate].
  destruct (dval (far_y_eps r)) as [by_|]; [|discriminate].
  intros Hax Hay Hbx Hby.
  apply reach_bounds in Hax, Hay, Hbx, Hby.
  destruct (to_int_reach (Qfloor ax)) as [-> Sxs]; [tauto|].
  destruct (to_int_reach (Qfloor ay)) as [-> Sys]; [tauto|].
  destruct (to_int_reach (Qceiling bx)) as [-> Sxe]; [tauto|].
  destruct (to_int_reach (Qceiling by_)) as [-> Sye]; [tauto|].
  eexists. split; [reflexivity|].
  rewrite FromXY_axes, Dx_Rect, Dy_Rect.
  split; apply from_axis_nonneg; rewrite sval_sub, ?Sxs, ?Sys, ?Sxe, ?Sye;
    rewrite wrap32_small; unfold INT_MIN, INT_MAX; lia.
Qed.

Lemma X13_Round_has_nonnegative_extents_witness :
  exists R : RectI,
    Round rect_backwards = Some R /\ 0 <= sval (Dx R) /\ 0 <= sval (Dy R).
Proof.
  apply (X13_Round_has_nonnegative_extents rect_backwards);
    vm_compute; reflexivity.
Defined.

Example Round_backwards_concrete :
  option_map coords (Round rect_backwards) = Some (1, 1, 2, 2).
Proof. vm_compute. reflexivity. Qed.

(** ** More about the tree visitor *)

Lemma call_in_order_app {S : Type} (visitor : TreeItem -> S -> bool * S)
    (l1 l2 : list TreeItem) (s : S) :
  call_in_order visitor (l1 ++ l2) s =
  let '(cont, s1) := call_in_order visitor l1 s in
  if cont then call_in_order visitor l2 s1 else (false, s1).
Proof.
  revert s. induction l1 as [|t l1 IH]; intros s; cbn [app call_in_order].
  - reflexivity.
  - destruct (visitor t s) as [cont s1]. destruct cont; [apply IH | reflexivity].
Qed.

(** X14.  On a tree without null child pointers, [VisitTreeModelItems]
    calls the visitor on the items in pre-order (an item before its
    children, the children in index order), stops at the first call
    that returns [false], and returns [true] exactly when no call did. *)
Theorem X14_visit_is_preorder_until_false {S : Type}
    (visitor : TreeItem -> S -> bool * S) :
  forall (t : TreeItem) (s : S),
    no_null_child t = true ->
    VisitTreeModelItems visitor (ptr_to t) s =
    (Returns (fst (call_in_order visitor (preorder t) s)),
     snd (call_in_order visitor (preorder t) s)).
Proof.
  unfold VisitTreeModelItems.
  fix IH 1. intros [id cs] s Hnn.
  cbn [VisitTreeItemRec preorder call_in_order].
  destruct (visitor (Item id cs) s) as [cont s1].
  destruct cont; cbn [negb]; [|reflexivity].
  cbn [no_null_child] in Hnn. clear s. revert s1.
  induction cs as [|c cs IHcs]; intros s1; [reflexivity|].
  cbn [forallb] in Hnn. apply andb_true_iff in Hnn as [Hc Hcs].
  destruct c as [|t']; [discriminate|].
  cbn [flat_map]. rewrite call_in_order_app, (IH t' s1 Hc).
  destruct (call_in_order visitor (preorder t') s1) as [cont s2].
  cbn [fst snd]. destruct cont; [apply IHcs, Hcs | reflexivity].
Qed.

Lemma X14_visit_is_preorder_until_false_witness :
  VisitTreeModelItems count_items
    (ptr_to (Item 1 [ptr_to (Item 2 [ptr_to (Item 4 [])]); ptr_to (Item 3 [])])) O =
  (Returns true, 4%nat).
Proof.
  exact (X14_visit_is_preorder_until_false count_items
           (Item 1 [ptr_to (Item 2 [ptr_to (Item 4 [])]); ptr_to (Item 3 [])])
           O eq_refl).
Defined.

(** X15.  With a visitor that never returns [false], the visit of an
    item returns [true] when no child pointer below it is null, and
    dereferences a null pointer when one is. *)
Theorem X15_null_child_faults_when_visitor_goes_on {S : Type}
    (visitor : TreeItem -> S -> bool * S) :
  (forall (t : TreeItem) (s : S), fst (visitor t s) = true) ->
  forall (t : TreeItem) (s : S),
    fst (VisitTreeModelItems visitor (ptr_to t) s) =
    if no_null_child t then Returns true else NullDereference.
Proof.
  intros Hgo. unfold VisitTreeModelItems.
  fix IH 1. intros [id cs] s.
  cbn [VisitTreeItemRec no_null_child].
  pose proof (Hgo (Item id cs) s) as Hc.
  destruct (visitor (Item id cs) s) as [cont s1]. cbn [fst] in Hc. subst cont.
  cbn [negb]. clear s. revert s1.
  induction cs as [|c cs IHcs]; intros s1; [reflexivity|].
  cbn [forallb]. destruct c as [|t']; [reflexivity|].
  pose proof (IH t' s1) as Ht.
  destruct (VisitTreeItemRec visitor (ptr_to t') s1) as [o s2].
  cbn [fst] in Ht. subst o.
  destruct (no_null_child t'); cbn [andb]; [apply IHcs | reflexivity].
Qed.

Lemma X15_null_child_faults_when_visitor_goes_on_witness :
  fst (VisitTreeModelItems count_items
         (ptr_to (Item 1 [ptr_to (Item 2 []); nullptr])) O) = NullDereference.
Proof.
  exact (X15_null_child_faults_when_visitor_goes_on count_items
           (fun _ _ => eq_refl) (Item 1 [ptr_to (Item 2 []); nullptr]) O).
Defined.

Lemma call_until_stop_app {S : Type} (visitor : TreeItem -> S -> bool * S)
    (l1 l2 : list (option TreeItem)) (s : S) :
  call_until_stop visitor (l1 ++ l2) s =
  match call_until_stop visitor l1 s with
  | (Returns true, s1) => call_until_stop visitor l2 s1
  | stopped => stopped
  end.
Proof.
  revert s. induction l1 as [|[t|] l1 IH]; intros s;
    cbn [app call_until_stop]; try reflexivity.
  destruct (visitor t s) as [cont s1]. destruct cont; [apply IH | reflexivity].
Qed.

(** X16.  For every tree, null pointers included, and every visitor,
    [VisitTreeModelItems] does what a single pass over the pre-order
    sequence of items and null marks does: it returns [false] at the
    first item the visitor rejects, dereferences the first null
    pointer met before that, and returns [true] when the pass ends.
    In particular a rejected root ends the visit before any child,
    null or not, is looked at. *)
Theorem X16_visit_is_one_pass_over_the_walk {S : Type}
    (visitor : TreeItem -> S -> bool * S) :
  forall (ti : TreePtr) (s : S),
    VisitTreeModelItems visitor ti s = call_until_stop visitor (walk ti) s.
Proof.
  unfold VisitTreeModelItems.
  fix IH 1. intros [|[id cs]] s; [reflexivity|].
  cbn [VisitTreeItemRec walk call_until_stop].
  destruct (visitor (Item id cs) s) as [cont s1].
  destruct cont; cbn [negb]; [|reflexivity].
  clear s. revert s1.
  induction cs as [|c cs IHcs]; intros s1; [reflexivity|].
  cbn [flat_map]. rewrite call_until_stop_app, <- (IH c s1).
  destruct (VisitTreeItemRec visitor c s1) as [[[|]|] s2];
    [apply IHcs | reflexivity | reflexivity].
Qed.

Example visit_rejected_root_with_null_child :
  VisitTreeModelItems (fun (_ : TreeItem) (n : nat) => (false, Datatypes.S n))
    (ptr_to (Item 1 [nullptr])) O = (Returns false, 1%nat).
Proof. reflexivity. Qed.

(** ** Drop-down items *)

(** X17.  [DropDownItemsFromStringArray] keeps the items already there
    and appends, in order, the table's entries before its first null
    entry; what follows the null entry is not read.  On a table
    without a null entry it reads past the end. *)
Theorem X17_DropDownItems_appends_up_to_the_null_entry :
  (forall (items pre : list string) (post : string_table),
     DropDownItemsFromStringArray items (map Some pre ++ None :: post) =
     Some (items ++ pre)) /\
  (forall items pre : list string,
     DropDownItemsFromStringArray items (map Some pre) = None).
Proof.
  split.
  - intros items pre post. revert items.
    induction pre as [|s pre IH]; intros items; cbn [map app DropDownItemsFromStringArray].
    + now rewrite app_nil_r.
    + rewrite IH, <- app_assoc. reflexivity.
  - intros items pre. revert items.
    induction pre as [|s pre IH]; intros items; cbn [map DropDownItemsFromStringArray];
      [reflexivity | apply IH].
Qed.

Example drop_down_annotation_types :
  DropDownItemsFromStringArray [] gAnnotationTypes =
  Some ["Text"; "Free Text"; "Stamp"; "Caret"; "Ink"; "Square"; "Circle";
        "Line"; "Polygon"]%string.
Proof. reflexivity. Qed.

(** Every colour name has its value: the drop-down built from
    [gColors] has as many items as [gColorsValues] has entries. *)
Example drop_down_colors_match_values :
  option_map (@length string) (DropDownItemsFromStringArray [] gColors) =
  Some (length gColorsValues).
Proof. reflexivity. Qed.

(** ** Doubles that are computed without rounding *)

Lemma digits2_pos_iter (m : positive) (k : positive) :
  Z.pos (digits2_pos (Pos.iter xO m k)) = Z.pos (digits2_pos m) + Z.pos k.
Proof.
  revert m. induction k using Pos.peano_ind; intros m.
  - cbn. lia.
  - rewrite Pos.iter_succ. cbn [digits2_pos]. rewrite Pos2Z.inj_succ, IHk. lia.
Qed.

Lemma iter_xO_value (m k : positive) :
  Z.pos (Pos.iter xO m k) = Z.pos m * 2 ^ Z.pos k.
Proof.
  revert m. induction k using Pos.peano_ind; intros m.
  - cbn. lia.
  - rewrite Pos.iter_succ, Pos2Z.inj_xO, IHk, Pos2Z.inj_succ, Z.pow_succ_r; lia.
Qed.

(** A mantissa of exactly 53 bits with its exponent in range passes
    [binary_round_aux] unchanged. *)
Lemma binary_round_aux_full (s : bool) (m : positive) (e : Z) :
  Z.pos (digits2_pos m) = 53 -> -1074 <= e <= 971 ->
  binary_round_aux dprec demax s (Z.pos m) e loc_Exact = S754_finite s m e.
Proof.
  intros Hd He. unfold binary_round_aux, shr_fexp, fexp, emin, dprec, demax.
  cbn [Zdigits2 shr_record_of_loc]. rewrite Hd.
  replace (Z.max (53 + e - 53) (3 - 1024 - 53) - e) with 0 by lia.
  cbn [shr shr_m loc_of_shr_record round_nearest_even Zdigits2].
  rewrite Hd.
  replace (Z.max (53 + e - 53) (3 - 1024 - 53) - e) with 0 by lia.
  cbn [shr shr_m].
  destruct (Z.leb_spec e (1024 - 53)); [reflexivity | lia].
Qed.

Lemma iter_pos_Pos_iter {A : Type} (f : A -> A) (n : positive) (a : A) :
  iter_pos f n a = Pos.iter f a n.
Proof.
  revert a. induction n as [n IH|n IH|]; intros a; cbn [iter_pos Pos.iter].
  - rewrite !IH. rewrite <- !Pos.iter_swap. reflexivity.
  - now rewrite !IH.
  - reflexivity.
Qed.

Lemma shr_trailing_zeros (q k : positive) :
  Pos.iter shr_1 (Build_shr_record (Z.pos (Pos.iter xO q k)) false false) k =
  Build_shr_record (Z.pos q) false false.
Proof.
  revert q. induction k using Pos.peano_ind; intros q.
  - reflexivity.
  - rewrite Pos.iter_succ. rewrite Pos.iter_succ, <- Pos.iter_swap.
    cbn [shr_1 orb]. apply IHk.
Qed.

Lemma binary_round_exact_down (s : bool) (q k : positive) (e : Z) :
  Z.pos (digits2_pos q) = 53 -> -1074 <= e + Z.pos k <= 971 ->
  binary_round dprec demax s (Pos.iter xO q k) e = S754_finite s q (e + Z.pos k).
Proof.
  intros Hd He. unfold binary_round, fexp, emin, dprec, demax.
  rewrite digits2_pos_iter, Hd.
  replace (Z.max (53 + Z.pos k + e - 53) (3 - 1024 - 53)) with (e + Z.pos k) by lia.
  unfold shl_align. replace (e + Z.pos k - e) with (Z.pos k) by lia.
  unfold binary_round_aux, shr_fexp, fexp, emin.
  cbn [Zdigits2 shr_record_of_loc]. rewrite digits2_pos_iter, Hd.
  replace (Z.max (53 + Z.pos k + e - 53) (3 - 1024 - 53) - e) with (Z.pos k) by lia.
  cbn [shr]. rewrite iter_pos_Pos_iter, shr_trailing_zeros.
  cbn [shr_m loc_of_shr_record round_nearest_even Zdigits2 shr_record_of_loc].
  rewrite Hd.
  replace (Z.max (53 + (e + Z.pos k) - 53) (3 - 1024 - 53) - (e + Z.pos k)) with 0 by lia.
  cbn [shr shr_m].
  destruct (Z.leb_spec (e + Z.pos k) (1024 - 53)); [reflexivity | lia].
Qed.

Lemma binary_round_exact_up (s : bool) (m k : positive) (e : Z) :
  Z.pos (digits2_pos m) + Z.pos k = 53 -> -1074 <= e - Z.pos k <= 971 ->
  binary_round dprec demax s m e = S754_finite s (Pos.iter xO m k) (e - Z.pos k).
Proof.
  intros Hd He. unfold binary_round, fexp, emin, dprec, demax.
  replace (Z.max (Z.pos (digits2_pos m) + e - 53) (3 - 1024 - 53)) with (e - Z.pos k) by lia.
  unfold shl_align. replace (e - Z.pos k - e) with (Z.neg k) by lia.
  apply binary_round_aux_full; [rewrite digits2_pos_iter; lia | lia].
Qed.

Lemma binary_round_exact_same (s : bool) (m : positive) (e : Z) :
  Z.pos (digits2_pos m) = 53 -> -1074 <= e <= 971 ->
  binary_round dprec demax s m e = S754_finite s m e.
Proof.
  intros Hd He. unfold binary_round, fexp, emin, dprec, demax. rewrite Hd.
  replace (Z.max (53 + e - 53) (3 - 1024 - 53)) with e by lia.
  unfold shl_align. rewrite Z.sub_diag.
  now apply binary_round_aux_full.
Qed.

Lemma Qpow2_shift (k e : Z) :
  0 <= k -> (inject_Z (2 ^ k) * Qpow2 (e - k) == Qpow2 e)%Q.
Proof.
  intros Hk. unfold Qpow2.
  assert (Hp : forall z, 0 <= z -> 0 < 2 ^ z) by (intros; apply Z.pow_pos_nonneg; lia).
  destruct (Z.leb_spec 0 (e - k)), (Z.leb_spec 0 e); try lia.
  - rewrite <- inject_Z_mult, <- Z.pow_add_r by lia.
    now replace (k + (e - k)) with e by lia.
  - unfold Qeq, Qmult, inject_Z. cbn [Qnum Qden].
    rewrite Pos.mul_1_l, Z2Pos.id by (apply Hp; lia).
    rewrite !Z.mul_1_r, <- Z.pow_add_r by lia. f_equal. lia.
  - unfold Qeq, Qmult, inject_Z. cbn [Qnum Qden].
    rewrite Pos.mul_1_l, !Z2Pos.id by (apply Hp; lia).
    rewrite !Z.mul_1_r, Z.mul_1_l, <- Z.pow_add_r by lia. f_equal. lia.
Qed.

Lemma dyadic_shift (n k e : Z) :
  0 <= k -> (dyadic (n * 2 ^ k) (e - k) == dyadic n e)%Q.
Proof.
  intros Hk. unfold dyadic.
  rewrite inject_Z_mult, <- Qmult_assoc, (Qpow2_shift k e Hk). reflexivity.
Qed.

Lemma signed_pos_mul (s : bool) (m : positive) (k : Z) (m' : positive) :
  Z.pos m' = Z.pos m * k -> signed_pos s m' = signed_pos s m * k.
Proof. destruct s; cbn [signed_pos]; lia. Qed.

Lemma dval_finite (s : bool) (m : positive) (e : Z) :
  dval (S754_finite s m e) = Some (dyadic (signed_pos s m) e).
Proof. reflexivity. Qed.

(** Rounding is exact for a mantissa of at most 53 bits, and for a
    longer one whose extra low bits are zero. *)
Lemma dval_binary_round_exact (s : bool) (M : positive) (e : Z) :
  (Z.pos (digits2_pos M) <= 53 \/
   (2 ^ (Z.pos (digits2_pos M) - 53) | Z.pos M)) ->
  -1074 <= Z.pos (digits2_pos M) + e - 53 <= 971 ->
  exists v : Q,
    dval (binary_round dprec demax s M e) = Some v /\
    (v == dyadic (signed_pos s M) e)%Q.
Proof.
  intros Hrep He.
  destruct (Z.lt_trichotomy (Z.pos (digits2_pos M)) 53) as [Hlt | [Heq | Hgt]].
  - (* shorter: shift up *)
    remember (Z.to_pos (53 - Z.pos (digits2_pos M))) as k.
    assert (Hk : Z.pos k = 53 - Z.pos (digits2_pos M))
      by (subst k; rewrite Z2Pos.id; lia).
    rewrite (binary_round_exact_up s M k e) by lia.
    eexists. split; [apply dval_finite|].
    rewrite (signed_pos_mul s M (2 ^ Z.pos k) (Pos.iter xO M k) (iter_xO_value M k)).
    apply dyadic_shift. lia.
  - rewrite (binary_round_exact_same s M e) by lia.
    eexists. split; [apply dval_finite | reflexivity].
  - destruct Hrep as [Hle | [c Hc]]; [lia|].
    remember (Z.to_pos (Z.pos (digits2_pos M) - 53)) as k.
    assert (Hk : Z.pos k = Z.pos (digits2_pos M) - 53)
      by (subst k; rewrite Z2Pos.id; lia).
    rewrite <- Hk in Hc.
    assert (Hcpos : 0 < c).
    { assert (0 < 2 ^ Z.pos k) by (apply Z.pow_pos_nonneg; lia). nia. }
    remember (Z.to_pos c) as q.
    assert (Hq : Z.pos q = c) by (subst q; rewrite Z2Pos.id; lia).
    assert (HM : M = Pos.iter xO q k).
    { apply Pos2Z.inj. rewrite iter_xO_value, Hq. exact Hc. }
    assert (Hdq : Z.pos (digits2_pos q) = 53).
    { pose proof (digits2_pos_iter q k) as Hd. rewrite <- HM in Hd. lia. }
    replace (binary_round dprec demax s M e)
      with (binary_round dprec demax s (Pos.iter xO q k) e) by (now rewrite <- HM).
    rewrite (binary_round_exact_down s q k e Hdq) by lia.
    eexists. split; [apply dval_finite|].
    rewrite (signed_pos_mul s q (2 ^ Z.pos k) M) by (rewrite Hq; exact Hc).
    replace e with ((e + Z.pos k) - Z.pos k) at 2 by lia.
    symmetry. apply dyadic_shift. lia.
Qed.

Lemma digits2_pos_bounds (m : positive) :
  2 ^ (Z.pos (digits2_pos m) - 1) <= Z.pos m < 2 ^ Z.pos (digits2_pos m).
Proof.
  induction m as [m IH|m IH|]; cbn [digits2_pos].
  - rewrite Pos2Z.inj_succ.
    replace (Z.succ (Z.pos (digits2_pos m)) - 1) with (Z.succ (Z.pos (digits2_pos m) - 1)) by lia.
    rewrite !Z.pow_succ_r by lia. lia.
  - rewrite Pos2Z.inj_succ.
    replace (Z.succ (Z.pos (digits2_pos m)) - 1) with (Z.succ (Z.pos (digits2_pos m) - 1)) by lia.
    rewrite !Z.pow_succ_r by lia. lia.
  - cbn. lia.
Qed.

Lemma digits2_pos_le (m : positive) (k : Z) :
  0 <= k -> Z.pos m < 2 ^ k -> Z.pos (digits2_pos m) <= k.
Proof.
  intros Hk Hm. pose proof (digits2_pos_bounds m) as [Hlo _].
  destruct (Z.le_gt_cases (Z.pos (digits2_pos m)) k) as [|Hgt]; [assumption|].
  exfalso.
  assert (2 ^ k <= 2 ^ (Z.pos (digits2_pos m) - 1)) by (apply Z.pow_le_mono_r; lia).
  lia.
Qed.

(** A number [n * 2^e] whose mantissa fits 53 bits once [t] zero low
    bits are dropped is a double: [binary_normalize] does not round. *)
Lemma dval_normalize_exact (n e t : Z) :
  0 <= t -> (2 ^ t | n) -> Z.abs n < 2 ^ (53 + t) ->
  -1022 <= e -> e + t <= 971 ->
  exists v : Q,
    dval (binary_normalize dprec demax n e false) = Some v /\
    (v == dyadic n e)%Q.
Proof.
  intros Ht Hdiv Habs He1 He2.
  destruct n as [|M|M]; cbn [binary_normalize].
  - exists 0%Q. split; [reflexivity|]. unfold dyadic. now rewrite Qmult_0_l.
  - assert (Hd : Z.pos (digits2_pos M) <= 53 + t) by (apply digits2_pos_le; lia).
    apply (dval_binary_round_exact false M e); [|lia].
    destruct (Z.le_gt_cases (Z.pos (digits2_pos M)) 53) as [|Hgt]; [now left | right].
    apply Z.divide_trans with (2 ^ t); [|assumption].
    exists (2 ^ (t - (Z.pos (digits2_pos M) - 53))).
    rewrite <- Z.pow_add_r by lia. f_equal. lia.
  - assert (Hd : Z.pos (digits2_pos M) <= 53 + t) by (apply digits2_pos_le; lia).
    apply (dval_binary_round_exact true M e); [|lia].
    destruct (Z.le_gt_cases (Z.pos (digits2_pos M)) 53) as [|Hgt]; [now left | right].
    apply Z.divide_trans with (2 ^ t).
    + exists (2 ^ (t - (Z.pos (digits2_pos M) - 53))).
      rewrite <- Z.pow_add_r by lia. f_equal. lia.
    + destruct Hdiv as [c Hc]. exists (- c). lia.
Qed.

Lemma dyadic_0 (n : Z) : (dyadic n 0 == inject_Z n)%Q.
Proof. unfold dyadic, Qpow2. cbn. apply Qmult_1_r. Qed.

Lemma dval_int_to_double (i : int) :
  exists v : Q, dval (int_to_double i) = Some v /\ (v == inject_Z (sval i))%Q.
Proof.
  pose proof (sval_range i) as Hr. unfold INT_MIN, INT_MAX in Hr.
  destruct (dval_normalize_exact (sval i) 0 0) as (v & Hv & Hq); try lia.
  - apply Z.divide_1_l.
  - exists v. split; [exact Hv|]. now rewrite Hq, dyadic_0.
Qed.

Lemma shl_align_value (m : positive) (e e' : Z) :
  e' <= e ->
  shl_align m e e' = (Z.to_pos (Z.pos m * 2 ^ (e - e')), e').
Proof.
  intros Hle. unfold shl_align.
  destruct (e' - e) as [|p|p] eqn:Hd; try lia.
  - replace (e - e') with 0 by lia. replace e' with e by lia.
    now rewrite Z.mul_1_r.
  - replace (e - e') with (Z.pos p) by lia.
    now rewrite <- iter_xO_value.
Qed.

(** A non-zero [int] as a double: a 53-bit mantissa and an exponent
    between -52 and -21. *)
Lemma int_to_double_shape (i : int) :
  sval i <> 0 ->
  exists (s : bool) (mz k : positive),
    int_to_double i = S754_finite s mz (- Z.pos k) /\
    signed_pos s mz = sval i * 2 ^ Z.pos k /\ Z.pos k <= 52.
Proof.
  intros Hnz. pose proof (sval_range i) as Hr. unfold INT_MIN, INT_MAX in Hr.
  unfold int_to_double, dbl.
  assert (Hsm : exists (s : bool) (m : positive),
             sval i = signed_pos s m /\ Z.pos m <= 2 ^ 31).
  { destruct (sval i) as [|m|m]; [congruence | exists false, m | exists true, m];
      split; try reflexivity; lia. }
  destruct Hsm as (s & m & Hz & Hm).
  assert (Hd : Z.pos (digits2_pos m) <= 32)
    by (apply digits2_pos_le; [lia|]; change (2 ^ 32) with (2 * 2 ^ 31); lia).
  remember (Z.to_pos (53 - Z.pos (digits2_pos m))) as k.
  assert (Hk : Z.pos k = 53 - Z.pos (digits2_pos m))
    by (subst k; rewrite Z2Pos.id; lia).
  exists s, (Pos.iter xO m k), k.
  split; [|split; [|lia]].
  - rewrite Hz. replace (- Z.pos k) with (0 - Z.pos k) by lia.
    rewrite <- (binary_round_exact_up s m k 0) by lia.
    now destruct s.
  - rewrite Hz. apply signed_pos_mul, iter_xO_value.
Qed.

Lemma signed_pos_cond_Zopp (s : bool) (m : positive) :
  cond_Zopp s (Z.pos m) = signed_pos s m.
Proof. now destruct s. Qed.

(** [(double)i + 0.5] is exact. *)
Lemma dval_int_plus_half (i : int) :
  exists v : Q,
    dval (num_add (int_to_double i) half) = Some v /\
    (v == inject_Z (sval i) + (1 # 2))%Q.
Proof.
  pose proof (sval_range i) as Hr. unfold INT_MIN, INT_MAX in Hr.
  destruct (Z.eq_dec (sval i) 0) as [Hz | Hnz].
  - unfold int_to_double. rewrite Hz. eexists. split; [reflexivity|].
    vm_compute. reflexivity.
  - destruct (int_to_double_shape i Hnz) as (s & mz & k & -> & Hv & Hk).
    change half with (S754_finite false 4503599627370496 (-53)).
    cbn [num_add double_kind SFadd].
    replace (Z.min (- Z.pos k) (-53)) with (-53) by lia.
    rewrite !shl_align_value by lia. cbn [fst].
    rewrite !Z2Pos.id by (apply Z.mul_pos_pos; [lia | apply Z.pow_pos_nonneg; lia]).
    replace (cond_Zopp s (Z.pos mz * 2 ^ (- Z.pos k - -53)) +
             cond_Zopp false (4503599627370496 * 2 ^ (-53 - -53)))
      with (sval i * 2 ^ 53 + 2 ^ 52).
    2:{ replace (-53 - -53) with 0 by lia.
        replace (sval i * 2 ^ 53)
          with (sval i * 2 ^ Z.pos k * 2 ^ (- Z.pos k - -53))
          by (rewrite <- Z.mul_assoc, <- Z.pow_add_r by lia; do 2 f_equal; lia).
        rewrite <- Hv. destruct s; cbn [cond_Zopp signed_pos]; lia. }
    destruct (dval_normalize_exact (sval i * 2 ^ 53 + 2 ^ 52) (-53) 52)
      as (v & Hdv & Hq); try lia.
    + exists (2 * sval i + 1). lia.
    + exists v. split; [exact Hdv|]. rewrite Hq.
      unfold dyadic, Qpow2, Qeq, Qmult, Qplus, inject_Z. cbn [Qnum Qden].
      cbn. lia.
Qed.

(** ** Conversions *)

Lemma to_int_sval (i : int) : to_int (sval i) = Some i.
Proof.
  unfold to_int. pose proof (sval_range i) as Hr.
  destruct (Z.leb_spec INT_MIN (sval i)), (Z.leb_spec (sval i) INT_MAX); try lia.
  cbn [andb]. f_equal. apply word.of_Z_signed.
Qed.

Lemma double_to_int_of_int (i : int) : double_to_int (int_to_double i) = Some i.
Proof.
  unfold double_to_int.
  destruct (dval_int_to_double i) as (v & -> & Hv).
  unfold Qtrunc. rewrite (Qfloor_comp _ _ Hv), (Qceiling_comp _ _ Hv).
  rewrite Qfloor_Z, Qceiling_Z. destruct (Qle_bool 0 v); apply to_int_sval.
Qed.

Lemma round_half_up_int_same (i : int) : round_half_up_int i = Some i.
Proof.
  unfold round_half_up_int, round_half_up, floor_int.
  destruct (dval_int_plus_half i) as (v & -> & Hv).
  rewrite (Qfloor_comp _ _ Hv).
  replace (Qfloor (inject_Z (sval i) + (1 # 2))) with (sval i);
    [apply to_int_sval|].
  unfold Qfloor, Qplus, inject_Z. cbn [Qnum Qden].
  change (Z.pos (1 * 2)) with 2. apply Z.div_unique with 1; [left|]; lia.
Qed.

(** X18.  Converting an integer point or size to [double] and back
    with [Convert] gives the point or size itself, for every [int]
    coordinate. *)
Theorem X18_Convert_int_double_int_round_trip :
  (forall p : PointI, Point_Convert_int (Point_Convert_double p) = Some p) /\
  (forall s : SizeI, Size_Convert_int (Size_Convert_double s) = Some s).
Proof.
  split.
  - intros [px py]. unfold Point_Convert_int, Point_Convert_double. cbn [x y].
    now rewrite !double_to_int_of_int.
  - intros [w h]. unfold Size_Convert_int, Size_Convert_double. cbn [dx dy].
    now rewrite !double_to_int_of_int.
Qed.

(** X19.  On the integer kind [ToInt()] changes nothing: [x + 0.5] is
    computed in [double] without rounding and its [floor] is [x]
    again, for points, sizes and rectangles, whatever the [int]s. *)
Theorem X19_ToInt_of_integers_is_identity :
  (forall p : PointI, PointI_ToInt p = Some p) /\
  (forall s : SizeI, SizeI_ToInt s = Some s) /\
  (forall r : RectI, RectI_ToInt r = Some r).
Proof.
  split; [|split].
  - intros [px py]. unfold PointI_ToInt. cbn [x y].
    now rewrite !round_half_up_int_same.
  - intros [w h]. unfold SizeI_ToInt. cbn [dx dy].
    now rewrite !round_half_up_int_same.
  - intros r. unfold RectI_ToInt. rewrite !round_half_up_int_same.
    f_equal. apply Rect_of_accessors.
Qed.

Lemma ToRECT_corners (r : RectI) :
  ToRECT r = Some (mkRECT (x (min r)) (y (min r)) (x (max r)) (y (max r))).
Proof.
  unfold ToRECT, RectI_ToInt. rewrite !round_half_up_int_same.
  rewrite Rect_of_accessors, far_x, far_y. reflexivity.
Qed.

(** X20.  [ToRECT()] of an integer rectangle is defined and holds its
    two corners.  When the corners are in order and less than 2^31
    apart, [FromRECT] and [ToRECT] are inverse to each other, in both
    directions. *)
Theorem X20_ToRECT_FromRECT_round_trip :
  (forall r : RectI,
     ToRECT r = Some (mkRECT (x (min r)) (y (min r)) (x (max r)) (y (max r)))) /\
  (forall r : RectI,
     0 <= sval (x (max r)) - sval (x (min r)) <= INT_MAX ->
     0 <= sval (y (max r)) - sval (y (min r)) <= INT_MAX ->
     option_map FromRECT (ToRECT r) = Some r) /\
  (forall rc : RECT,
     0 <= sval (right rc) - sval (left rc) <= INT_MAX ->
     0 <= sval (bottom rc) - sval (top rc) <= INT_MAX ->
     ToRECT (FromRECT rc) = Some rc).
Proof.
  split; [apply ToRECT_corners|]. split.
  - intros r Hx Hy. rewrite ToRECT_corners. cbn [option_map]. f_equal.
    unfold FromRECT. cbn [left top right bottom].
    rewrite FromXY_ordered by lia. now destruct r as [[ax ay] [bx by_]].
  - intros [l t r b]. cbn [left top right bottom]. intros Hx Hy.
    unfold FromRECT. cbn [left top right bottom].
    rewrite FromXY_ordered by lia. apply ToRECT_corners.
Qed.

Lemma X20_ToRECT_FromRECT_round_trip_witness :
  option_map FromRECT (ToRECT (RcI 2 3 10 20)) = Some (RcI 2 3 10 20) /\
  ToRECT (FromRECT (mkRECT (of_int 2) (of_int 3) (of_int 12) (of_int 23))) =
  Some (mkRECT (of_int 2) (of_int 3) (of_int 12) (of_int 23)).
Proof.
  split.
  - apply (proj1 (proj2 X20_ToRECT_FromRECT_round_trip) (RcI 2 3 10 20));
      vm_compute; split; congruence.
  - apply (proj2 (proj2 X20_ToRECT_FromRECT_round_trip)
             (mkRECT (of_int 2) (of_int 3) (of_int 12) (of_int 23)));
      vm_compute; split; congruence.
Defined.

(** ** Sums and differences on a dyadic grid *)

Lemma to_pos_shift (M : positive) (k : positive) :
  Z.to_pos (Z.pos M * 2 ^ Z.pos k) = Pos.iter xO M k.
Proof. rewrite <- iter_xO_value. reflexivity. Qed.

(** The double of a mantissa of at most 53 bits: the mantissa is
    shifted up to 53 bits. *)
Lemma binary_round_small (s : bool) (M : positive) (e : Z) :
  Z.pos (digits2_pos M) <= 53 ->
  -1074 <= e - (53 - Z.pos (digits2_pos M)) <= 971 ->
  binary_round dprec demax s M e =
  S754_finite s (Z.to_pos (Z.pos M * 2 ^ (53 - Z.pos (digits2_pos M))))
              (e - (53 - Z.pos (digits2_pos M))).
Proof.
  intros Hd He.
  destruct (53 - Z.pos (digits2_pos M)) as [|k|k] eqn:Hk; try lia.
  - rewrite Z.mul_1_r, Z.sub_0_r. change (Z.to_pos (Z.pos M)) with M.
    apply binary_round_exact_same; lia.
  - rewrite to_pos_shift. apply binary_round_exact_up; lia.
Qed.

Lemma digits2_pos_shift (M : positive) (j : Z) :
  0 <= j ->
  Z.pos (digits2_pos (Z.to_pos (Z.pos M * 2 ^ j))) = Z.pos (digits2_pos M) + j.
Proof.
  intros Hj. destruct j as [|j|j]; try lia.
  - rewrite Z.mul_1_r, Z.add_0_r. reflexivity.
  - rewrite to_pos_shift. apply digits2_pos_iter.
Qed.

Lemma to_pos_shift_shift (M : positive) (j k : Z) :
  0 <= j -> 0 <= k ->
  Z.to_pos (Z.pos (Z.to_pos (Z.pos M * 2 ^ j)) * 2 ^ k) = Z.to_pos (Z.pos M * 2 ^ (j + k)).
Proof.
  intros Hj Hk.
  assert (0 < 2 ^ j) by (apply Z.pow_pos_nonneg; lia).
  rewrite Z2Pos.id by lia. rewrite Z.pow_add_r by lia. f_equal. lia.
Qed.

(** The same number with its mantissa shifted up by [j] bits and its
    exponent lowered by [j] rounds to the same double. *)
Lemma binary_round_rescale (s : bool) (M : positive) (j e : Z) :
  0 <= j -> Z.pos (digits2_pos M) <= 53 ->
  -1074 <= e - (53 - Z.pos (digits2_pos M)) <= 971 ->
  binary_round dprec demax s (Z.to_pos (Z.pos M * 2 ^ j)) (e - j) =
  binary_round dprec demax s M e.
Proof.
  intros Hj Hd He. rewrite (binary_round_small s M e Hd He).
  set (d := Z.pos (digits2_pos M)) in *.
  destruct (Z.le_gt_cases (d + j) 53) as [Hle | Hgt].
  - rewrite binary_round_small; rewrite digits2_pos_shift by lia; fold d; try lia.
    rewrite to_pos_shift_shift by lia. f_equal; [f_equal; f_equal; f_equal|]; lia.
  - remember (Z.to_pos (d + j - 53)) as k.
    assert (Hk : Z.pos k = d + j - 53) by (subst k; rewrite Z2Pos.id; lia).
    replace (Z.to_pos (Z.pos M * 2 ^ j))
      with (Pos.iter xO (Z.to_pos (Z.pos M * 2 ^ (53 - d))) k).
    + rewrite binary_round_exact_down.
      * f_equal. lia.
      * rewrite digits2_pos_shift by lia. fold d. lia.
      * lia.
    + rewrite <- to_pos_shift, to_pos_shift_shift by lia. f_equal. f_equal. f_equal. lia.
Qed.

Lemma binary_normalize_signed (s : bool) (M : positive) (e : Z) :
  binary_normalize dprec demax (signed_pos s M) e false =
  binary_round dprec demax s M e.
Proof. now destruct s. Qed.

Lemma signed_pos_cases (n : Z) :
  n = 0 \/ exists (s : bool) (M : positive), n = signed_pos s M /\ Z.abs n = Z.pos M.
Proof.
  destruct n as [|M|M]; [now left | right; exists false, M | right; exists true, M];
    split; reflexivity.
Qed.

Lemma signed_pos_shift (s : bool) (M : positive) (j : Z) :
  0 <= j -> signed_pos s M * 2 ^ j = signed_pos s (Z.to_pos (Z.pos M * 2 ^ j)).
Proof.
  intros Hj. assert (0 < 2 ^ j) by (apply Z.pow_pos_nonneg; lia).
  destruct s; cbn [signed_pos].
  - change (Z.neg (Z.to_pos (Z.pos M * 2 ^ j)))
      with (- Z.pos (Z.to_pos (Z.pos M * 2 ^ j))).
    rewrite Z2Pos.id by lia. lia.
  - rewrite Z2Pos.id by lia. reflexivity.
Qed.

Lemma small_digits (M : positive) : Z.pos M < 2 ^ 53 -> Z.pos (digits2_pos M) <= 53.
Proof. intros H. apply digits2_pos_le; [lia | exact H]. Qed.

(** [dbl n e] for a non-zero [n] of at most 53 bits. *)
Lemma dbl_finite (s : bool) (M : positive) (e : Z) :
  Z.pos M < 2 ^ 53 -> -1022 <= e <= 971 ->
  dbl (signed_pos s M) e =
  S754_finite s (Z.to_pos (Z.pos M * 2 ^ (53 - Z.pos (digits2_pos M))))
              (e - (53 - Z.pos (digits2_pos M))).
Proof.
  intros HM He. unfold dbl. rewrite binary_normalize_signed.
  pose proof (small_digits M HM). apply binary_round_small; lia.
Qed.

Lemma dbl_rescale (n j e : Z) :
  0 <= j -> Z.abs n < 2 ^ 53 -> -1022 <= e <= 971 ->
  dbl (n * 2 ^ j) (e - j) = dbl n e.
Proof.
  intros Hj Hn He. unfold dbl.
  destruct (signed_pos_cases n) as [-> | (s & M & -> & Habs)]; [reflexivity|].
  rewrite signed_pos_shift, !binary_normalize_signed by lia.
  pose proof (small_digits M ltac:(lia)).
  apply binary_round_rescale; lia.
Qed.

Lemma cond_Zopp_signed (s : bool) (p : positive) :
  cond_Zopp s (Z.pos p) = signed_pos s p.
Proof. now destruct s. Qed.

(** The aligned mantissa of [dbl (signed_pos s M) e] at an exponent
    [ez] below its own is [signed_pos s M * 2 ^ (e - ez)]. *)
Lemma aligned_mantissa (s : bool) (M : positive) (k e ez : Z) :
  0 <= k -> ez <= e - k ->
  cond_Zopp s (Z.pos (fst (shl_align (Z.to_pos (Z.pos M * 2 ^ k)) (e - k) ez))) =
  signed_pos s M * 2 ^ (e - ez).
Proof.
  intros Hk Hez. rewrite shl_align_value by lia. cbn [fst].
  rewrite cond_Zopp_signed, to_pos_shift_shift by lia.
  rewrite <- signed_pos_shift by lia. do 2 f_equal. lia.
Qed.

(** Sums and differences of numbers on one grid [2^e] are computed
    without rounding as long as everything fits 53 bits. *)
Lemma SFadd_dbl (a b e : Z) :
  Z.abs a < 2 ^ 53 -> Z.abs b < 2 ^ 53 -> Z.abs (a + b) < 2 ^ 53 ->
  -1022 <= e <= 971 ->
  SFadd dprec demax (dbl a e) (dbl b e) = dbl (a + b) e.
Proof.
  intros Ha Hb Hab He.
  destruct (signed_pos_cases a) as [-> | (sa & Ma & -> & Habs_a)].
  { cbn [Z.add]. change (dbl 0 e) with (S754_zero false).
    destruct (signed_pos_cases b) as [-> | (sb & Mb & -> & Habs_b)]; [reflexivity|].
    rewrite dbl_finite by lia. reflexivity. }
  destruct (signed_pos_cases b) as [-> | (sb & Mb & -> & Habs_b)].
  { rewrite Z.add_0_r. change (dbl 0 e) with (S754_zero false).
    rewrite dbl_finite by lia. reflexivity. }
  rewrite (dbl_finite sa Ma e), (dbl_finite sb Mb e) by lia.
  pose proof (small_digits Ma ltac:(lia)). pose proof (small_digits Mb ltac:(lia)).
  cbn [SFadd].
  set (ez := Z.min (e - (53 - Z.pos (digits2_pos Ma))) (e - (53 - Z.pos (digits2_pos Mb)))).
  rewrite !aligned_mantissa by lia.
  rewrite <- Z.mul_add_distr_r.
  replace ez with (e - (e - ez)) at 2 by lia.
  apply dbl_rescale; lia.
Qed.

Lemma SFsub_dbl (a b e : Z) :
  Z.abs a < 2 ^ 53 -> Z.abs b < 2 ^ 53 -> Z.abs (a - b) < 2 ^ 53 ->
  -1022 <= e <= 971 ->
  SFsub dprec demax (dbl a e) (dbl b e) = dbl (a - b) e.
Proof.
  intros Ha Hb Hab He.
  destruct (signed_pos_cases a) as [-> | (sa & Ma & -> & Habs_a)].
  { change (dbl 0 e) with (S754_zero false).
    destruct (signed_pos_cases b) as [-> | (sb & Mb & -> & Habs_b)]; [reflexivity|].
    replace (0 - signed_pos sb Mb) with (signed_pos (negb sb) Mb)
      by (destruct sb; reflexivity).
    rewrite !dbl_finite by lia. reflexivity. }
  destruct (signed_pos_cases b) as [-> | (sb & Mb & -> & Habs_b)].
  { rewrite Z.sub_0_r. change (dbl 0 e) with (S754_zero false).
    rewrite dbl_finite by lia. reflexivity. }
  rewrite (dbl_finite sa Ma e), (dbl_finite sb Mb e) by lia.
  pose proof (small_digits Ma ltac:(lia)). pose proof (small_digits Mb ltac:(lia)).
  cbn [SFsub].
  set (ez := Z.min (e - (53 - Z.pos (digits2_pos Ma))) (e - (53 - Z.pos (digits2_pos Mb)))).
  rewrite !aligned_mantissa by lia.
  rewrite <- Z.mul_sub_distr_r.
  replace ez with (e - (e - ez)) at 2 by lia.
  apply dbl_rescale; lia.
Qed.

Lemma dval_dbl (n e : Z) :
  Z.abs n < 2 ^ 53 -> -1022 <= e <= 971 ->
  exists v : Q, dval (dbl n e) = Some v /\ (v == dyadic n e)%Q.
Proof.
  intros Hn He. apply (dval_normalize_exact n e 0); try lia.
  apply Z.divide_1_l.
Qed.

(** ** Integer rectangles as [double] rectangles *)

Lemma int_abs_small (i : int) : Z.abs (sval i) < 2 ^ 53.
Proof.
  pose proof (sval_range i) as Hr. unfold INT_MIN, INT_MAX in Hr. lia.
Qed.

(** The constructor [RectT<double>(x, y, dx, dy)] given four [int]s:
    the far corner [x + dx], [y + dy] and the extents read back from
    it are computed without rounding. *)
Lemma RectD_of_ints (x0 y0 w h : int) :
  Rect (int_to_double x0) (int_to_double y0) (int_to_double w) (int_to_double h) =
  mkRectT (mkPoint (dbl (sval x0) 0) (dbl (sval y0) 0))
          (mkPoint (dbl (sval x0 + sval w) 0) (dbl (sval y0 + sval h) 0)).
Proof.
  pose proof (sval_range x0). pose proof (sval_range y0).
  pose proof (sval_range w). pose proof (sval_range h).
  unfold Rect, int_to_double. cbn [num_add double_kind].
  rewrite !SFadd_dbl by (unfold INT_MIN, INT_MAX in *; lia). reflexivity.
Qed.

Lemma RectD_of_ints_extents (x0 y0 w h : int) :
  Dx (Rect (int_to_double x0) (int_to_double y0) (int_to_double w) (int_to_double h))
    = int_to_double w /\
  Dy (Rect (int_to_double x0) (int_to_double y0) (int_to_double w) (int_to_double h))
    = int_to_double h.
Proof.
  pose proof (sval_range x0). pose proof (sval_range y0).
  pose proof (sval_range w). pose proof (sval_range h).
  rewrite RectD_of_ints. unfold Dx, Dy, int_to_double.
  cbn [min max x y num_sub double_kind].
  rewrite !SFsub_dbl by (unfold INT_MIN, INT_MAX in *; lia).
  split; f_equal; lia.
Qed.

Lemma Qfloor_dyadic (n k : Z) :
  0 <= k -> Qfloor (dyadic n (- k)) = n / 2 ^ k.
Proof.
  intros Hk. assert (Hp : 0 < 2 ^ k) by (apply Z.pow_pos_nonneg; lia).
  unfold dyadic, Qpow2.
  destruct (Z.leb_spec 0 (- k)).
  - replace k with 0 by lia. change (2 ^ (- 0)) with 1.
    rewrite Qmult_1_r, Qfloor_Z. now rewrite Z.div_1_r.
  - rewrite Z.opp_involutive. unfold Qfloor, Qmult, inject_Z. cbn [Qnum Qden].
    rewrite Z.mul_1_r, Pos.mul_1_l, Z2Pos.id by lia. reflexivity.
Qed.

Lemma Qceiling_dyadic (n k : Z) :
  0 <= k -> Qceiling (dyadic n (- k)) = - ((- n) / 2 ^ k).
Proof.
  intros Hk. unfold Qceiling. f_equal.
  rewrite <- (Qfloor_dyadic (- n) k Hk). apply Qfloor_comp.
  unfold dyadic. rewrite inject_Z_opp. ring.
Qed.

Lemma to_int_add (a b : int) :
  INT_MIN <= sval a + sval b <= INT_MAX ->
  to_int (sval a + sval b) = Some (num_add a b).
Proof.
  intros Hr. unfold to_int.
  destruct (Z.leb_spec INT_MIN (sval a + sval b)),
    (Z.leb_spec (sval a + sval b) INT_MAX); try lia.
  cbn [andb]. f_equal. apply sval_inj.
  rewrite sval_of_int, sval_add, wrap32_small by lia. reflexivity.
Qed.

(** The near edge [X + FLT_EPSILON] of a rectangle that starts at an
    integer rounds down to that integer; the far edge, an integer
    less [FLT_EPSILON], rounds up to it. *)
Lemma floor_int_plus_eps (z : Z) :
  Z.abs z <= 2 ^ 29 ->
  floor_int (num_add (dbl z 0) FLT_EPSILON) = to_int z.
Proof.
  intros Hz. unfold FLT_EPSILON. cbn [num_add double_kind].
  rewrite <- (dbl_rescale z 23 0) by lia. cbn [Z.sub Z.opp].
  rewrite SFadd_dbl by lia.
  unfold floor_int.
  destruct (dval_dbl (z * 2 ^ 23 + 1) (-23)) as (v & -> & Hv); [lia | lia |].
  rewrite (Qfloor_comp _ _ Hv), (Qfloor_dyadic _ 23) by lia.
  f_equal. symmetry. apply Z.div_unique with 1; lia.
Qed.

Lemma ceil_int_minus_eps (z : Z) :
  Z.abs z <= 2 ^ 29 ->
  ceil_int (num_sub (dbl z 0) FLT_EPSILON) = to_int z.
Proof.
  intros Hz. unfold FLT_EPSILON. cbn [num_sub double_kind].
  rewrite <- (dbl_rescale z 23 0) by lia. cbn [Z.sub Z.opp].
  rewrite SFsub_dbl by lia.
  unfold ceil_int.
  destruct (dval_dbl (z * 2 ^ 23 - 1) (-23)) as (v & -> & Hv); [lia | lia |].
  rewrite (Qceiling_comp _ _ Hv), (Qceiling_dyadic _ 23) by lia.
  f_equal. replace z with (- - z) at 2 by lia. f_equal.
  symmetry. apply Z.div_unique with 1; lia.
Qed.

(** X21.  An integer rectangle carried over to [double] by the
    constructor [RectT<double>(x, y, dx, dy)] comes back unchanged
    from [ToInt()], for all four [int]s. *)
Theorem X21_ToInt_of_RectD_built_from_integers (x0 y0 w h : int) :
  Rect_ToInt (Rect (int_to_double x0) (int_to_double y0)
                   (int_to_double w) (int_to_double h)) =
  Some (Rect x0 y0 w h).
Proof.
  unfold Rect_ToInt.
  destruct (RectD_of_ints_extents x0 y0 w h) as [-> ->].
  rewrite RectD_of_ints. unfold X, Y. cbn [min x y].
  fold (int_to_double x0) (int_to_double y0).
  fold (round_half_up_int x0) (round_half_up_int y0)
       (round_half_up_int w) (round_half_up_int h).
  now rewrite !round_half_up_int_same.
Qed.

(** X22.  [Round()] of a [double] rectangle built from integers
    [x, y, dx, dy], all of [x], [y], [x + dx], [y + dy] within 2^29 of
    zero, is [FromXY(x, y, x + dx, y + dy)]: every sum and difference
    with [FLT_EPSILON] is computed without rounding, the near edges
    round down and the far edges round up to the integers they came
    from.  With non-negative [dx] and [dy] the result is the integer
    rectangle [(x, y, dx, dy)] itself. *)
Theorem X22_Round_of_integer_rectangle (x0 y0 w h : int) :
  Z.abs (sval x0) <= 2 ^ 29 -> Z.abs (sval y0) <= 2 ^ 29 ->
  Z.abs (sval x0 + sval w) <= 2 ^ 29 -> Z.abs (sval y0 + sval h) <= 2 ^ 29 ->
  Round (Rect (int_to_double x0) (int_to_double y0)
              (int_to_double w) (int_to_double h)) =
    Some (FromXY x0 y0 (num_add x0 w) (num_add y0 h)) /\
  (0 <= sval w -> 0 <= sval h ->
   Round (Rect (int_to_double x0) (int_to_double y0)
               (int_to_double w) (int_to_double h)) =
     Some (Rect x0 y0 w h)).
Proof.
  intros Hx Hy Hxw Hyh.
  pose proof (sval_range x0). pose proof (sval_range y0).
  pose proof (sval_range w). pose proof (sval_range h).
  assert (HR : Round (Rect (int_to_double x0) (int_to_double y0)
                           (int_to_double w) (int_to_double h)) =
               Some (FromXY x0 y0 (num_add x0 w) (num_add y0 h))).
  { unfold Round.
    destruct (RectD_of_ints_extents x0 y0 w h) as [-> ->].
    rewrite RectD_of_ints. unfold X, Y. cbn [min x y].
    unfold int_to_double.
    assert (Hsum : forall a b : int,
               num_add (dbl (sval a) 0) (dbl (sval b) 0) = dbl (sval a + sval b) 0).
    { intros a b. pose proof (sval_range a). pose proof (sval_range b).
      cbn [num_add double_kind].
      apply SFadd_dbl; unfold INT_MIN, INT_MAX in *; lia. }
    rewrite !Hsum.
    rewrite !floor_int_plus_eps, !ceil_int_minus_eps by lia.
    rewrite !to_int_sval, !to_int_add by (unfold INT_MIN, INT_MAX; lia).
    reflexivity. }
  split; [exact HR|].
  intros Hw Hh. rewrite HR. f_equal.
  rewrite FromXY_ordered
    by (rewrite ?sval_add, ?wrap32_small; unfold INT_MIN, INT_MAX in *; lia).
  reflexivity.
Qed.

Lemma X22_Round_of_integer_rectangle_witness :
  Round (Rect (int_to_double (of_int 2)) (int_to_double (of_int 3))
              (int_to_double (of_int 10)) (int_to_double (of_int 20))) =
  Some (Rect (of_int 2) (of_int 3) (of_int 10) (of_int 20)).
Proof.
  apply (proj2 (X22_Round_of_integer_rectangle
                  (of_int 2) (of_int 3) (of_int 10) (of_int 20)
                  ltac:(vm_compute; congruence) ltac:(vm_compute; congruence)
                  ltac:(vm_compute; congruence) ltac:(vm_compute; congruence)));
    vm_compute; congruence.
Defined.

(** ** Rounding of doubles with few fraction bits *)

(** X23.  On a double [n / 2^k] with [|n| + 2^(k-1) < 2^53] the
    rounding [(int)floor(v + 0.5)] that [ToInt()] applies to every
    coordinate is exact round-half-up: the sum is computed without
    rounding and the result is [floor(n / 2^k + 1/2)], ties going up
    for negative values as well. *)
Theorem X23_ToInt_rounds_half_up_exactly (n k : Z) :
  1 <= k <= 1022 -> Z.abs n + 2 ^ (k - 1) < 2 ^ 53 ->
  round_half_up (dbl n (- k)) = to_int ((n + 2 ^ (k - 1)) / 2 ^ k).
Proof.
  intros Hk Hn.
  assert (Hp : 0 < 2 ^ (k - 1)) by (apply Z.pow_pos_nonneg; lia).
  unfold round_half_up, half. cbn [num_add double_kind].
  replace (dbl 1 (-1)) with (dbl (1 * 2 ^ (k - 1)) (-1 - (k - 1)))
    by (apply dbl_rescale; lia).
  replace (-1 - (k - 1)) with (- k) by lia. rewrite Z.mul_1_l.
  rewrite SFadd_dbl by lia.
  unfold floor_int.
  destruct (dval_dbl (n + 2 ^ (k - 1)) (- k)) as (v & -> & Hv); [lia | lia |].
  now rewrite (Qfloor_comp _ _ Hv), Qfloor_dyadic by lia.
Qed.

Lemma X23_ToInt_rounds_half_up_exactly_witness :
  round_half_up (dbl (-5) (-1)) = to_int (-2).
Proof.
  exact (X23_ToInt_rounds_half_up_exactly (-5) 1
           ltac:(lia) ltac:(vm_compute; reflexivity)).
Defined.

(** The largest double below 0.5: adding 0.5 to it rounds to 1, and
    [ToInt()] gives 1 where round-half-up of the value is 0. *)
Example ToInt_just_below_half :
  round_half_up (dbl (2 ^ 53 - 1) (-54)) = to_int 1.
Proof. vm_compute. reflexivity. Qed.

Lemma to_int_small (z : Z) :
  Z.abs z <= 2 ^ 30 -> to_int z = Some (of_int z) /\ sval (of_int z) = z.
Proof.
  intros Hz. unfold to_int.
  assert (Hr : INT_MIN <= z <= INT_MAX) by (unfold INT_MIN, INT_MAX; lia).
  destruct (Z.leb_spec INT_MIN z), (Z.leb_spec z INT_MAX); try lia.
  split; [reflexivity | now apply sval_of_int].
Qed.

Lemma grid_rect_edges (a b c d : Z) :
  Z.abs a <= 2 ^ 51 -> Z.abs b <= 2 ^ 51 ->
  Z.abs c <= 2 ^ 51 -> Z.abs d <= 2 ^ 51 ->
  near_x (grid_rect a b c d) = dbl (2 * a + 1) (-23) /\
  near_y (grid_rect a b c d) = dbl (2 * b + 1) (-23) /\
  far_x_eps (grid_rect a b c d) = dbl (2 * c - 1) (-23) /\
  far_y_eps (grid_rect a b c d) = dbl (2 * d - 1) (-23) /\
  num_add (X (grid_rect a b c d)) (Dx (grid_rect a b c d)) = dbl c (-22) /\
  num_add (Y (grid_rect a b c d)) (Dy (grid_rect a b c d)) = dbl d (-22).
Proof.
  intros Ha Hb Hc Hd.
  assert (Hfar : forall u v : Z, Z.abs u <= 2 ^ 51 -> Z.abs v <= 2 ^ 51 ->
            num_add (dbl u (-22)) (num_sub (dbl v (-22)) (dbl u (-22))) = dbl v (-22)).
  { intros u v Hu Hv. cbn [num_add num_sub double_kind].
    rewrite SFsub_dbl, SFadd_dbl by lia. f_equal. lia. }
  assert (Hup : forall u : Z, Z.abs u <= 2 ^ 51 -> dbl u (-22) = dbl (2 * u) (-23)).
  { intros u Hu. rewrite <- (dbl_rescale u 1 (-22)) by lia. f_equal. lia. }
  unfold near_x, near_y, far_x_eps, far_y_eps, X, Y, Dx, Dy, grid_rect.
  cbn [min max x y]. rewrite !Hfar by assumption.
  rewrite !Hup by assumption. unfold FLT_EPSILON.
  cbn [num_add num_sub double_kind].
  rewrite !SFadd_dbl, !SFsub_dbl by lia. repeat split; reflexivity.
Qed.

Lemma floor_odd_numerator (a : Z) : (2 * a + 1) / 2 ^ 23 = a / 2 ^ 22.
Proof.
  change (2 ^ 23) with (2 * 2 ^ 22). rewrite <- Z.div_div by lia.
  f_equal. symmetry. apply Z.div_unique with 1; lia.
Qed.

(** X24.  On a rectangle whose corner coordinates are multiples of
    2^-22 of size at most 2^29, with the corners in order, the nudges
    by [FLT_EPSILON] change nothing: [Round()] is plain outward
    rounding, [floor] of the near and [ceil] of the far corner, and it
    covers every point between the corners of the rectangle. *)
Theorem X24_Round_is_outward_on_coarse_grid (a b c d : Z) :
  Z.abs a <= 2 ^ 51 -> Z.abs b <= 2 ^ 51 ->
  Z.abs c <= 2 ^ 51 -> Z.abs d <= 2 ^ 51 ->
  a <= c -> b <= d ->
  Round (grid_rect a b c d) =
    Some (mkRectT (mkPoint (of_int (a / 2 ^ 22)) (of_int (b / 2 ^ 22)))
                  (mkPoint (of_int (- (- c / 2 ^ 22))) (of_int (- (- d / 2 ^ 22))))) /\
  forall (R : RectI) (p : PointD),
    Round (grid_rect a b c d) = Some R ->
    between (X (grid_rect a b c d)) (x p)
            (num_add (X (grid_rect a b c d)) (Dx (grid_rect a b c d))) = true ->
    between (Y (grid_rect a b c d)) (y p)
            (num_add (Y (grid_rect a b c d)) (Dy (grid_rect a b c d))) = true ->
    covers R p = true.
Proof.
  intros Ha Hb Hc Hd Hac Hbd.
  destruct (grid_rect_edges a b c d Ha Hb Hc Hd)
    as (Hnx & Hny & Hfx & Hfy & Hex & Hey).
  assert (Hfl : forall u : Z, Z.abs u <= 2 ^ 51 ->
            floor_int (dbl (2 * u + 1) (-23)) = Some (of_int (u / 2 ^ 22)) /\
            sval (of_int (u / 2 ^ 22)) = u / 2 ^ 22).
  { intros u Hu. unfold floor_int.
    destruct (dval_dbl (2 * u + 1) (-23)) as (v & -> & Hv); [lia | lia |].
    rewrite (Qfloor_comp _ _ Hv), (Qfloor_dyadic _ 23), floor_odd_numerator by lia.
    apply to_int_small.
    assert (- 2 ^ 29 <= u / 2 ^ 22 <= 2 ^ 29); [|lia].
    split; [apply Z.div_le_lower_bound | apply Z.div_le_upper_bound]; lia. }
  assert (Hce : forall u : Z, Z.abs u <= 2 ^ 51 ->
            ceil_int (dbl (2 * u - 1) (-23)) = Some (of_int (- (- u / 2 ^ 22))) /\
            sval (of_int (- (- u / 2 ^ 22))) = - (- u / 2 ^ 22)).
  { intros u Hu. unfold ceil_int.
    destruct (dval_dbl (2 * u - 1) (-23)) as (v & -> & Hv); [lia | lia |].
    rewrite (Qceiling_comp _ _ Hv), (Qceiling_dyadic _ 23) by lia.
    replace (- (2 * u - 1)) with (2 * (- u) + 1) by lia.
    rewrite floor_odd_numerator.
    apply to_int_small.
    assert (- 2 ^ 29 <= - u / 2 ^ 22 <= 2 ^ 29); [|lia].
    split; [apply Z.div_le_lower_bound | apply Z.div_le_upper_bound]; lia. }
  destruct (Hfl a Ha) as [Fa Sa]. destruct (Hfl b Hb) as [Fb Sb].
  destruct (Hce c Hc) as [Cc Sc]. destruct (Hce d Hd) as [Cd Sd].
  assert (Hdiv : forall u v : Z, u <= v -> u / 2 ^ 22 <= - (- v / 2 ^ 22)).
  { intros u v Huv.
    pose proof (Z.div_mod u (2 ^ 22) ltac:(lia)).
    pose proof (Z.mod_pos_bound u (2 ^ 22) ltac:(lia)).
    pose proof (Z.div_mod (- v) (2 ^ 22) ltac:(lia)).
    pose proof (Z.mod_pos_bound (- v) (2 ^ 22) ltac:(lia)). lia. }
  assert (HR : Round (grid_rect a b c d) =
    Some (mkRectT (mkPoint (of_int (a / 2 ^ 22)) (of_int (b / 2 ^ 22)))
                  (mkPoint (of_int (- (- c / 2 ^ 22))) (of_int (- (- d / 2 ^ 22)))))).
  { unfold Round.
    fold (near_x (grid_rect a b c d)) (near_y (grid_rect a b c d))
         (far_x_eps (grid_rect a b c d)) (far_y_eps (grid_rect a b c d)).
    rewrite Hnx, Hny, Hfx, Hfy, Fa, Fb, Cc, Cd. f_equal.
    pose proof (Hdiv a c Hac). pose proof (Hdiv b d Hbd).
    assert (- 2 ^ 29 <= a / 2 ^ 22 /\ - (- c / 2 ^ 22) <= 2 ^ 29 /\
            - 2 ^ 29 <= b / 2 ^ 22 /\ - (- d / 2 ^ 22) <= 2 ^ 29) as (B1 & B2 & B3 & B4).
    { repeat split; try apply Z.div_le_lower_bound; try lia;
        apply Z.opp_le_mono; rewrite Z.opp_involutive;
        apply Z.div_le_lower_bound; lia. }
    apply FromXY_ordered; rewrite ?Sa, ?Sb, ?Sc, ?Sd; unfold INT_MAX; lia. }
  split; [exact HR|].
  intros R p HRp Hpx Hpy. rewrite HR in HRp. injection HRp as <-.
  rewrite Hex in Hpx. rewrite Hey in Hpy.
  unfold between, X, Y, grid_rect in Hpx, Hpy. cbn [min max x y] in Hpx, Hpy.
  destruct (dval_dbl a (-22)) as (va & Ea & Hva); [lia | lia |].
  destruct (dval_dbl b (-22)) as (vb & Eb & Hvb); [lia | lia |].
  destruct (dval_dbl c (-22)) as (vc & Ec & Hvc); [lia | lia |].
  destruct (dval_dbl d (-22)) as (vd & Ed & Hvd); [lia | lia |].
  rewrite Ea, Ec in Hpx. rewrite Eb, Ed in Hpy.
  unfold covers. rewrite far_x, far_y. unfold X, Y. cbn [min max x y].
  destruct (dval (x p)) as [qx|]; [|discriminate].
  destruct (dval (y p)) as [qy|]; [|discriminate].
  change (Z.pow_pos 2 22) with (2 ^ 22).
  rewrite Sa, Sb, Sc, Sd.
  apply andb_true_iff in Hpx as [Hx1 Hx2]. apply andb_true_iff in Hpy as [Hy1 Hy2].
  apply Qle_bool_iff in Hx1, Hx2, Hy1, Hy2.
  rewrite <- (Qfloor_dyadic a 22), <- (Qfloor_dyadic b 22) by lia.
  rewrite <- (Qceiling_dyadic c 22), <- (Qceiling_dyadic d 22) by lia.
  rewrite !andb_true_iff, !Qle_bool_iff. repeat split.
  - eapply Qle_trans; [apply Qfloor_le|]. now rewrite <- Hva.
  - eapply Qle_trans; [|apply Qle_ceiling]. now rewrite <- Hvc.
  - eapply Qle_trans; [apply Qfloor_le|]. now rewrite <- Hvb.
  - eapply Qle_trans; [|apply Qle_ceiling]. now rewrite <- Hvd.
Qed.

Lemma X24_Round_is_outward_on_coarse_grid_witness :
  Round (grid_rect 1 1 (5 * 2 ^ 21) (5 * 2 ^ 21)) = Some (RcI 0 0 3 3).
Proof.
  apply (proj1 (X24_Round_is_outward_on_coarse_grid 1 1 (5 * 2 ^ 21) (5 * 2 ^ 21)
                  ltac:(vm_compute; congruence) ltac:(vm_compute; congruence)
                  ltac:(vm_compute; congruence) ltac:(vm_compute; congruence)
                  ltac:(vm_compute; congruence) ltac:(vm_compute; congruence))).
Defined.

(** ** Comparison of doubles on a dyadic grid *)

Lemma compare_cont_Eq (p q : positive) :
  Pos.compare_cont Eq p q = (Z.pos p ?= Z.pos q).
Proof. reflexivity. Qed.

Lemma to_pos_shift_compare (M N : positive) (k : Z) :
  0 <= k ->
  (Z.pos (Z.to_pos (Z.pos M * 2 ^ k)) ?= Z.pos (Z.to_pos (Z.pos N * 2 ^ k))) =
  (Z.pos M ?= Z.pos N).
Proof.
  intros Hk. assert (0 < 2 ^ k) by (apply Z.pow_pos_nonneg; lia).
  rewrite !Z2Pos.id by lia.
  destruct (Z.compare_spec (Z.pos M) (Z.pos N)) as [Heq | Hlt | Hgt].
  - rewrite Heq. apply Z.compare_refl.
  - apply Z.compare_lt_iff. nia.
  - apply Z.compare_gt_iff. nia.
Qed.

(** Two mantissas of at most 53 bits, as doubles on one grid: the
    exponents and then the mantissas compare as the numbers do. *)
Lemma finite_compare (M N : positive) (e : Z) :
  Z.pos M < 2 ^ 53 -> Z.pos N < 2 ^ 53 ->
  match e - (53 - Z.pos (digits2_pos M)) ?= e - (53 - Z.pos (digits2_pos N)) with
  | Lt => Lt
  | Gt => Gt
  | Eq => Pos.compare_cont Eq
            (Z.to_pos (Z.pos M * 2 ^ (53 - Z.pos (digits2_pos M))))
            (Z.to_pos (Z.pos N * 2 ^ (53 - Z.pos (digits2_pos N))))
  end = (Z.pos M ?= Z.pos N).
Proof.
  intros HM HN.
  pose proof (small_digits M HM). pose proof (small_digits N HN).
  pose proof (digits2_pos_bounds M) as [HM1 HM2].
  pose proof (digits2_pos_bounds N) as [HN1 HN2].
  destruct (Z.compare_spec (e - (53 - Z.pos (digits2_pos M)))
                           (e - (53 - Z.pos (digits2_pos N)))) as [He | He | He].
  - assert (Hd : Z.pos (digits2_pos M) = Z.pos (digits2_pos N)) by lia.
    rewrite compare_cont_Eq, Hd. apply to_pos_shift_compare. lia.
  - symmetry. apply Z.compare_lt_iff.
    assert (2 ^ Z.pos (digits2_pos M) <= 2 ^ (Z.pos (digits2_pos N) - 1))
      by (apply Z.pow_le_mono_r; lia).
    lia.
  - symmetry. apply Z.compare_gt_iff.
    assert (2 ^ Z.pos (digits2_pos N) <= 2 ^ (Z.pos (digits2_pos M) - 1))
      by (apply Z.pow_le_mono_r; lia).
    lia.
Qed.

(** Doubles on one grid compare as their numerators do. *)
Lemma SFcompare_dbl (a b e : Z) :
  Z.abs a < 2 ^ 53 -> Z.abs b < 2 ^ 53 -> -1022 <= e <= 971 ->
  SFcompare (dbl a e) (dbl b e) = Some (a ?= b).
Proof.
  intros Ha Hb He.
  destruct (signed_pos_cases a) as [-> | (sa & Ma & -> & Habs_a)];
    destruct (signed_pos_cases b) as [-> | (sb & Mb & -> & Habs_b)];
    change (dbl 0 e) with (S754_zero false);
    rewrite ?dbl_finite by lia; cbn [SFcompare].
  - reflexivity.
  - now destruct sb.
  - now destruct sa.
  - destruct sa, sb; cbn [signed_pos]; try reflexivity.
    + change (Z.neg Ma ?= Z.neg Mb) with (CompOpp (Z.pos Ma ?= Z.pos Mb)).
      rewrite <- (finite_compare Ma Mb e) by lia.
      now destruct (e - (53 - Z.pos (digits2_pos Ma))
                    ?= e - (53 - Z.pos (digits2_pos Mb))).
    + now rewrite finite_compare by lia.
Qed.

Lemma SFltb_dbl (a b e : Z) :
  Z.abs a < 2 ^ 53 -> Z.abs b < 2 ^ 53 -> -1022 <= e <= 971 ->
  SFltb (dbl a e) (dbl b e) = (a <? b).
Proof.
  intros Ha Hb He. unfold SFltb, Z.ltb. rewrite SFcompare_dbl by assumption.
  now destruct (a ?= b).
Qed.

Lemma SFleb_dbl (a b e : Z) :
  Z.abs a < 2 ^ 53 -> Z.abs b < 2 ^ 53 -> -1022 <= e <= 971 ->
  SFleb (dbl a e) (dbl b e) = (a <=? b).
Proof.
  intros Ha Hb He. unfold SFleb, Z.leb. rewrite SFcompare_dbl by assumption.
  now destruct (a ?= b).
Qed.

(** ** The integer kind inside the floating kind *)

(** The operations of the two kinds agree through the conversion of
    an [int] to a [double]: always for the comparisons, [std::max] and
    [std::min], and for a sum or difference when it does not wrap. *)
Lemma ltb_int_to_double (a b : int) :
  num_ltb (int_to_double a) (int_to_double b) = num_ltb a b.
Proof.
  rewrite int_ltb. apply SFltb_dbl; try lia; apply int_abs_small.
Qed.

Lemma leb_int_to_double (a b : int) :
  num_leb (int_to_double a) (int_to_double b) = num_leb a b.
Proof.
  rewrite int_leb. apply SFleb_dbl; try lia; apply int_abs_small.
Qed.

Lemma zero_int_to_double : (num_zero : double) = int_to_double num_zero.
Proof. reflexivity. Qed.

Lemma std_max_int_to_double (a b : int) :
  std_max (int_to_double a) (int_to_double b) = int_to_double (std_max a b).
Proof. unfold std_max. rewrite ltb_int_to_double. now destruct (num_ltb a b). Qed.

Lemma std_min_int_to_double (a b : int) :
  std_min (int_to_double a) (int_to_double b) = int_to_double (std_min a b).
Proof. unfold std_min. rewrite ltb_int_to_double. now destruct (num_ltb b a). Qed.

Lemma add_int_to_double (a b : int) :
  INT_MIN <= sval a + sval b <= INT_MAX ->
  num_add (int_to_double a) (int_to_double b) = int_to_double (num_add a b).
Proof.
  intros Hfit. pose proof (sval_range a). pose proof (sval_range b).
  unfold int_to_double. rewrite sval_add, wrap32_small by assumption.
  apply SFadd_dbl; unfold INT_MIN, INT_MAX in *; lia.
Qed.

Lemma sub_int_to_double (a b : int) :
  INT_MIN <= sval a - sval b <= INT_MAX ->
  num_sub (int_to_double a) (int_to_double b) = int_to_double (num_sub a b).
Proof.
  intros Hfit. pose proof (sval_range a). pose proof (sval_range b).
  unfold int_to_double. rewrite sval_sub, wrap32_small by assumption.
  apply SFsub_dbl; unfold INT_MIN, INT_MAX in *; lia.
Qed.

(** The four-argument constructor commutes with the conversion,
    whatever the arguments. *)
Lemma Rect_int_to_double (x0 y0 w h : int) :
  Rect (int_to_double x0) (int_to_double y0) (int_to_double w) (int_to_double h) =
  to_RectD (Rect x0 y0 w h).
Proof.
  unfold to_RectD. now rewrite Dx_Rect, Dy_Rect.
Qed.

Lemma to_RectD_default : to_RectD Rect_default = Rect_default.
Proof. reflexivity. Qed.

Lemma to_RectD_extents (r : RectI) :
  Dx (to_RectD r) = int_to_double (Dx r) /\ Dy (to_RectD r) = int_to_double (Dy r).
Proof. apply RectD_of_ints_extents. Qed.

Lemma to_RectD_ends (r : RectI) :
  extents_fit r ->
  num_add (X (to_RectD r)) (Dx (to_RectD r)) = int_to_double (num_add (X r) (Dx r)) /\
  num_add (Y (to_RectD r)) (Dy (to_RectD r)) = int_to_double (num_add (Y r) (Dy r)).
Proof.
  intros [Hx Hy]. destruct (to_RectD_extents r) as [-> ->].
  change (X (to_RectD r)) with (int_to_double (X r)).
  change (Y (to_RectD r)) with (int_to_double (Y r)).
  unfold Dx, Dy, X, Y.
  pose proof (sval_range (x (max r))). pose proof (sval_range (y (max r))).
  split; apply add_int_to_double; rewrite sval_sub, wrap32_small by assumption; lia.
Qed.

Lemma half_range_fits (r : RectI) : half_range r -> extents_fit r.
Proof. unfold half_range, extents_fit, INT_MIN, INT_MAX. lia. Qed.

(** X25.  [Contains] answers the same on an integer rectangle and
    point and on the [double] rectangle and point built from them,
    as long as the distance between the corners of the rectangle is
    an [int] on both axes. *)
Theorem X25_Contains_same_in_doubles (r : RectI) (p : PointI) :
  extents_fit r ->
  Contains (to_RectD r) (Point_Convert_double p) = Contains r p.
Proof.
  intros Hfit. destruct (to_RectD_ends r Hfit) as [Hex Hey].
  unfold Contains, num_gtb. cbn zeta. rewrite Hex, Hey.
  change (X (to_RectD r)) with (int_to_double (X r)).
  change (Y (to_RectD r)) with (int_to_double (Y r)).
  change (x (Point_Convert_double p)) with (int_to_double (x p)).
  change (y (Point_Convert_double p)) with (int_to_double (y p)).
  now rewrite !ltb_int_to_double.
Qed.

Lemma half_range_ends (a b : RectI) :
  half_range a -> half_range b ->
  forall (f g : Z -> Z -> Z),
    (forall u v, f u v = u \/ f u v = v) -> (forall u v, g u v = u \/ g u v = v) ->
    INT_MIN <= f (sval (x (max a))) (sval (x (max b)))
               - g (sval (x (min a))) (sval (x (min b))) <= INT_MAX /\
    INT_MIN <= f (sval (y (max a))) (sval (y (max b)))
               - g (sval (y (min a))) (sval (y (min b))) <= INT_MAX.
Proof.
  unfold half_range, INT_MIN, INT_MAX. intros Ha Hb f g Hf Hg.
  destruct (Hf (sval (x (max a))) (sval (x (max b)))) as [-> | ->],
           (Hg (sval (x (min a))) (sval (x (min b)))) as [-> | ->],
           (Hf (sval (y (max a))) (sval (y (max b)))) as [-> | ->],
           (Hg (sval (y (min a))) (sval (y (min b)))) as [-> | ->]; lia.
Qed.

Lemma int_far_corner (r : RectI) :
  num_add (X r) (Dx r) = x (max r) /\ num_add (Y r) (Dy r) = y (max r).
Proof. unfold X, Y, Dx, Dy. split; int_ring. Qed.

Ltac near_corner_of_to_RectD :=
  repeat match goal with
  | |- context [X (to_RectD ?r)] =>
      change (X (to_RectD r)) with (int_to_double (X r))
  | |- context [Y (to_RectD ?r)] =>
      change (Y (to_RectD r)) with (int_to_double (Y r))
  end.

(** X26.  For integer rectangles with corners within [2^30] of the
    origin, [Intersect] of the [double] rectangles built from them
    is the [double] rectangle built from their integer [Intersect]:
    the floating kind computes the same intersection, without
    rounding. *)
Theorem X26_Intersect_same_in_doubles (a b : RectI) :
  half_range a -> half_range b ->
  Intersect (to_RectD a) (to_RectD b) = to_RectD (Intersect a b).
Proof.
  intros Ha Hb.
  destruct (to_RectD_ends a (half_range_fits a Ha)) as [Hax Hay].
  destruct (to_RectD_ends b (half_range_fits b Hb)) as [Hbx Hby].
  destruct (half_range_ends a b Ha Hb Z.min Z.max) as [Hx Hy]; try (intros; lia).
  destruct (int_far_corner a) as [Eax Eay], (int_far_corner b) as [Ebx Eby].
  unfold Intersect. cbn zeta. rewrite Hax, Hay, Hbx, Hby.
  near_corner_of_to_RectD.
  rewrite !std_max_int_to_double, !std_min_int_to_double.
  rewrite !sub_int_to_double
    by (rewrite int_std_min, int_std_max, ?Eax, ?Eay, ?Ebx, ?Eby; assumption).
  change (@num_zero double double_kind) with (int_to_double num_zero).
  rewrite !leb_int_to_double, Rect_int_to_double.
  now destruct (_ || _).
Qed.

(** X27.  For integer rectangles with corners within [2^30] of the
    origin, [Union] of the [double] rectangles built from them is
    the [double] rectangle built from their integer [Union]. *)
Theorem X27_Union_same_in_doubles (a b : RectI) :
  half_range a -> half_range b ->
  Union (to_RectD a) (to_RectD b) = to_RectD (Union a b).
Proof.
  intros Ha Hb.
  destruct (to_RectD_ends a (half_range_fits a Ha)) as [Hax Hay].
  destruct (to_RectD_ends b (half_range_fits b Hb)) as [Hbx Hby].
  destruct (to_RectD_extents a) as [Dax Day], (to_RectD_extents b) as [Dbx Dby].
  destruct (half_range_ends a b Ha Hb Z.max Z.min) as [Hx Hy]; try (intros; lia).
  destruct (int_far_corner a) as [Eax Eay], (int_far_corner b) as [Ebx Eby].
  unfold Union. cbn zeta. rewrite Hax, Hay, Hbx, Hby, Dax, Day, Dbx, Dby.
  near_corner_of_to_RectD.
  rewrite !std_max_int_to_double, !std_min_int_to_double.
  rewrite !sub_int_to_double
    by (rewrite int_std_min, int_std_max, ?Eax, ?Eay, ?Ebx, ?Eby; assumption).
  change (@num_zero double double_kind) with (int_to_double num_zero).
  rewrite !leb_int_to_double, Rect_int_to_double.
  repeat match goal with
  | |- context [if ?c then _ else _] => destruct c
  end; reflexivity.
Qed.

Lemma SFopp_dbl (n e : Z) :
  n <> 0 -> Z.abs n < 2 ^ 53 -> -1022 <= e <= 971 ->
  SFopp (dbl n e) = dbl (- n) e.
Proof.
  intros Hn Hb He.
  destruct (signed_pos_cases n) as [-> | (s & M & -> & Habs)]; [lia |].
  replace (- signed_pos s M) with (signed_pos (negb s) M) by now destruct s.
  rewrite !dbl_finite by lia. reflexivity.
Qed.

Lemma neg_int_to_double (d : int) :
  sval d <> 0 -> sval d <> INT_MIN ->
  num_neg (int_to_double d) = int_to_double (num_neg d).
Proof.
  intros H0 Hmin. pose proof (sval_range d) as Hr.
  unfold int_to_double. rewrite sval_neg, wrap32_small
    by (unfold INT_MIN, INT_MAX in *; lia).
  apply SFopp_dbl; unfold INT_MIN, INT_MAX in *; lia.
Qed.

(** X28.  [FromXY] on four [int]s converted to [double] builds the
    [double] form of the integer [FromXY], provided neither
    difference of the arguments wraps or is [INT_MIN]. *)
Theorem X28_FromXY_same_in_doubles (xs ys xe ye : int) :
  - INT_MAX <= sval xe - sval xs <= INT_MAX ->
  - INT_MAX <= sval ye - sval ys <= INT_MAX ->
  FromXY (int_to_double xs) (int_to_double ys)
         (int_to_double xe) (int_to_double ye) =
  to_RectD (FromXY xs ys xe ye).
Proof.
  intros Hx Hy. unfold FromXY.
  rewrite !sub_int_to_double by (unfold INT_MIN, INT_MAX in *; lia).
  change (@num_zero double double_kind) with (int_to_double num_zero).
  rewrite !ltb_int_to_double, !int_ltb, sval_zero.
  assert (Hdx : sval (num_sub xe xs) = sval xe - sval xs)
    by (rewrite sval_sub; apply wrap32_small; unfold INT_MIN, INT_MAX in *; lia).
  assert (Hdy : sval (num_sub ye ys) = sval ye - sval ys)
    by (rewrite sval_sub; apply wrap32_small; unfold INT_MIN, INT_MAX in *; lia).
  destruct (Z.ltb_spec (sval (num_sub xe xs)) 0),
           (Z.ltb_spec (sval (num_sub ye ys)) 0);
    rewrite ?neg_int_to_double by (unfold INT_MIN, INT_MAX in *; lia);
    apply Rect_int_to_double.
Qed.

(** Where the distance between the corners wraps, the two kinds part:
    the integer rectangle from [INT_MIN] to [INT_MAX] contains the
    origin, the [double] rectangle built from its accessors does not. *)
Example Contains_differs_on_wrapped_extent :
  let r := mkRectT (mkPoint (of_int INT_MIN) (of_int 0))
                   (mkPoint (of_int INT_MAX) (of_int 1)) in
  Contains r (PtI 0 0) = true /\
  Contains (to_RectD r) (Point_Convert_double (PtI 0 0)) = false.
Proof. vm_compute. split; reflexivity. Qed.

Lemma X25_Contains_same_in_doubles_witness :
  Contains (to_RectD (RcI 1 2 3 4)) (Point_Convert_double (PtI 4 6)) =
  Contains (RcI 1 2 3 4) (PtI 4 6).
Proof.
  apply (X25_Contains_same_in_doubles (RcI 1 2 3 4) (PtI 4 6)).
  vm_compute. intuition congruence.
Defined.

Lemma X26_Intersect_same_in_doubles_witness :
  Intersect (to_RectD (RcI 0 0 10 10)) (to_RectD (RcI 5 5 10 10)) =
  to_RectD (Intersect (RcI 0 0 10 10) (RcI 5 5 10 10)).
Proof.
  apply (X26_Intersect_same_in_doubles (RcI 0 0 10 10) (RcI 5 5 10 10));
    vm_compute; intuition congruence.
Defined.

Lemma X27_Union_same_in_doubles_witness :
  Union (to_RectD (RcI 0 0 10 10)) (to_RectD (RcI 5 5 10 10)) =
  to_RectD (Union (RcI 0 0 10 10) (RcI 5 5 10 10)).
Proof.
  apply (X27_Union_same_in_doubles (RcI 0 0 10 10) (RcI 5 5 10 10));
    vm_compute; intuition congruence.
Defined.

Lemma X28_FromXY_same_in_doubles_witness :
  FromXY (int_to_double (of_int 7)) (int_to_double (of_int 1))
         (int_to_double (of_int 2)) (int_to_double (of_int 9)) =
  to_RectD (FromXY (of_int 7) (of_int 1) (of_int 2) (of_int 9)).
Proof.
  apply (X28_FromXY_same_in_doubles (of_int 7) (of_int 1) (of_int 2) (of_int 9));
    vm_compute; intuition congruence.
Defined.

Lemma SFeqb_dbl (a b e : Z) :
  Z.abs a < 2 ^ 53 -> Z.abs b < 2 ^ 53 -> -1022 <= e <= 971 ->
  SFeqb (dbl a e) (dbl b e) = (a =? b).
Proof.
  intros Ha Hb He. unfold SFeqb. rewrite SFcompare_dbl by assumption.
  destruct (Z.compare_spec a b), (Z.eqb_spec a b); try reflexivity; lia.
Qed.

Lemma eqb_int_to_double (a b : int) :
  num_eqb (int_to_double a) (int_to_double b) = num_eqb a b.
Proof.
  rewrite int_eqb. apply SFeqb_dbl; try lia; apply int_abs_small.
Qed.

(** X29.  The [double] rectangle built from an integer rectangle is
    [IsEmpty()] exactly when the integer one is, and two such
    rectangles are [==] (and [!=]) exactly when the integer ones
    are; no bound on the coordinates is needed. *)
Theorem X29_IsEmpty_and_equality_same_in_doubles (a b : RectI) :
  IsEmpty (to_RectD a) = IsEmpty a /\
  Rect_eq (to_RectD a) (to_RectD b) = Rect_eq a b /\
  Rect_ne (to_RectD a) (to_RectD b) = Rect_ne a b.
Proof.
  destruct (to_RectD_extents a) as [Dax Day], (to_RectD_extents b) as [Dbx Dby].
  unfold Rect_ne, Rect_eq, IsEmpty. rewrite Dax, Day, Dbx, Dby.
  near_corner_of_to_RectD.
  change (@num_zero double double_kind) with (int_to_double num_zero).
  now rewrite !eqb_int_to_double.
Qed.
